(** * SensorBee: pipe fabric, BQL syntax tree, parser entry point, UDF bridge

    A shallow embedding of the parts of the SensorBee runtime that the
    specification makes promises about:

    - [Ast]: the expression nodes of [bql/parser/ast.go] with their three
      interrogations and the operator precedence comparison;
    - [Pipe]: [pipeSender.write] and [dataDestinations.Write] of
      [core/pipe.go], over an explicit heap of tuples, since tuples are
      passed around by pointer and mutated in place;
    - [Parser]: [BQLParser.ParseStmt] with its deferred [recover];
    - [Udf]: [convertGenericAggregate] and [genericFunc.Accept]. *)

From stdpp Require Import base tactics option list strings gmap sorting.
From Stdlib Require Import ZArith Lia Bool Ascii.

Local Open Scope Z_scope.
Set Warnings "-register-all".

(** ** The BQL syntax tree *)

Module Ast.

(** [type Operator int]: the constants are numbered by [iota] and the
    precedence functions compare these numbers. *)
Definition Operator := Z.

Definition UnknownOperator : Operator := 0.
Definition Or : Operator := 1.
Definition And : Operator := 2.
Definition Not : Operator := 3.
Definition Equal : Operator := 4.
Definition Less : Operator := 5.
Definition LessOrEqual : Operator := 6.
Definition Greater : Operator := 7.
Definition GreaterOrEqual : Operator := 8.
Definition NotEqual : Operator := 9.
Definition Concat : Operator := 10.
Definition Is : Operator := 11.
Definition IsNot : Operator := 12.
Definition Plus : Operator := 13.
Definition Minus : Operator := 14.
Definition Multiply : Operator := 15.
Definition Divide : Operator := 16.
Definition Modulo : Operator := 17.
Definition UnaryMinus : Operator := 18.

(** [Operator.hasSamePrecedenceAs]: five ranges of constants. *)
Definition hasSamePrecedenceAs (op rhs : Operator) : bool :=
  if (Or <=? op) && (op <=? Not) && (Or <=? rhs) && (rhs <=? Not) then true
  else if (Less <=? op) && (op <=? GreaterOrEqual)
          && (Less <=? rhs) && (rhs <=? GreaterOrEqual) then true
  else if (Is <=? op) && (op <=? IsNot) && (Is <=? rhs) && (rhs <=? IsNot) then true
  else if (Plus <=? op) && (op <=? Minus) && (Plus <=? rhs) && (rhs <=? Minus) then true
  else if (Multiply <=? op) && (op <=? Modulo)
          && (Multiply <=? rhs) && (rhs <=? Modulo) then true
  else false.

(** [Operator.hasHigherPrecedenceThan]. *)
Definition hasHigherPrecedenceThan (op rhs : Operator) : bool :=
  if hasSamePrecedenceAs op rhs then false else rhs <? op.

(** The operators in the order in which the specification lists them. *)
Definition precedenceOrder : list Operator :=
  [Or; And; Not; Equal; Less; LessOrEqual; Greater; GreaterOrEqual; NotEqual;
   Concat; Is; IsNot; Plus; Minus; Multiply; Divide; Modulo; UnaryMinus].

(** The groups inside which [hasSamePrecedenceAs] answers true. *)
Definition precedenceGroups : list (list Operator) :=
  [[Or; And; Not]; [Less; LessOrEqual; Greater; GreaterOrEqual];
   [Is; IsNot]; [Plus; Minus]; [Multiply; Divide; Modulo]].

Definition inGroup (op : Operator) (g : list Operator) : bool :=
  existsb (Z.eqb op) g.

Definition sameGroup (a b : Operator) : bool :=
  existsb (fun g => inGroup a g && inGroup b g) precedenceGroups.

(** The precedence claim as the specification words it: strictly increasing
    along the list. *)
Definition strictly_increasing_precedence : Prop :=
  forall (i j : nat) (a b : Operator),
    (i < j)%nat ->
    precedenceOrder !! i = Some a ->
    precedenceOrder !! j = Some b ->
    hasHigherPrecedenceThan b a = true.

(** [type BinaryKeyword int], [type Type int], [type MetaInformation int]. *)
Inductive BinaryKeyword := UnspecifiedKeyword | Yes | No.

Inductive Type_ :=
  UnknownType | Bool | Int | Float | String_ | Blob | Timestamp | Array | Map.

Inductive MetaInformation := UnknownMeta | TimestampMeta | NowMeta.

(** The implementations of the [Expression] interface.  Slices are lists,
    [FuncAppAST.Ordering] is a slice of [SortedExpressionAST] structs and
    [MapAST.Entries] one of [KeyValuePairAST] structs, both written as pairs;
    [ConditionCaseAST.Else] is the only field the code tests against [nil].
    A [float64] is carried as its bit pattern. *)
Inductive Expression :=
| AliasAST (Expr : Expression) (Alias : string)
| BinaryOpAST (Op : Operator) (Left Right : Expression)
| UnaryOpAST (Op : Operator) (Expr : Expression)
| TypeCastAST (Expr : Expression) (Target : Type_)
| FuncAppAST (Function : string) (Expressions : list Expression)
    (Ordering : list (Expression * BinaryKeyword))
| SortedExpressionAST (Expr : Expression) (Ascending : BinaryKeyword)
| ArrayAST (Expressions : list Expression)
| MapAST (Entries : list (string * Expression))
| Wildcard (Relation : string)
| RowValue (Relation Column : string)
| ConditionCaseAST (Checks : list (Expression * Expression))
    (Else : option Expression)
| ExpressionCaseAST (Expr : Expression)
    (Checks : list (Expression * Expression)) (Else : option Expression)
| RowMeta (Relation : string) (MetaType : MetaInformation)
| NumericLiteral (Value : Z)
| FloatLiteral (Value : Z)
| NullLiteral
| Missing
| BoolLiteral (Value : bool)
| StringLiteral (Value : string).

(** [RenameReferencedRelation(from, to)], node by node. *)
Fixpoint RenameReferencedRelation (e : Expression) (from to : string)
  : Expression :=
  match e with
  | AliasAST x a => AliasAST (RenameReferencedRelation x from to) a
  | BinaryOpAST op l r =>
      BinaryOpAST op (RenameReferencedRelation l from to)
        (RenameReferencedRelation r from to)
  | UnaryOpAST op x => UnaryOpAST op (RenameReferencedRelation x from to)
  | TypeCastAST x t => TypeCastAST (RenameReferencedRelation x from to) t
  | FuncAppAST f xs ord =>
      FuncAppAST f
        (map (fun x => RenameReferencedRelation x from to) xs)
        (map (fun p => (RenameReferencedRelation (fst p) from to, snd p)) ord)
  | SortedExpressionAST x asc =>
      SortedExpressionAST (RenameReferencedRelation x from to) asc
  | ArrayAST xs => ArrayAST (map (fun x => RenameReferencedRelation x from to) xs)
  | MapAST es =>
      MapAST (map (fun p => (fst p, RenameReferencedRelation (snd p) from to)) es)
  | Wildcard rel => if String.eqb rel from then Wildcard to else Wildcard rel
  | RowValue rel col => if String.eqb rel from then RowValue to col else e
  | ConditionCaseAST cs el =>
      ConditionCaseAST
        (map (fun p => (RenameReferencedRelation (fst p) from to,
                        RenameReferencedRelation (snd p) from to)) cs)
        (match el with
         | Some x => Some (RenameReferencedRelation x from to)
         | None => None
         end)
  | ExpressionCaseAST x cs el =>
      ExpressionCaseAST (RenameReferencedRelation x from to)
        (map (fun p => (RenameReferencedRelation (fst p) from to,
                        RenameReferencedRelation (snd p) from to)) cs)
        (match el with
         | Some x => Some (RenameReferencedRelation x from to)
         | None => None
         end)
  | RowMeta rel m => if String.eqb rel from then RowMeta to m else e
  | NumericLiteral _ | FloatLiteral _ | NullLiteral | Missing
  | BoolLiteral _ | StringLiteral _ => e
  end.

(** [Foldable()], node by node.  The loops that clear a flag and [break]
    are [forallb]. *)
Fixpoint Foldable (e : Expression) : bool :=
  match e with
  | AliasAST x _ => Foldable x
  | BinaryOpAST _ l r => Foldable l && Foldable r
  | UnaryOpAST _ x => Foldable x
  | TypeCastAST x _ => Foldable x
  | FuncAppAST f xs ord =>
      if String.eqb f "now" && (Z.of_nat (length xs) =? 0) then false
      else if 0 <? Z.of_nat (length ord) then false
      else forallb Foldable xs
  | SortedExpressionAST x _ => Foldable x
  | ArrayAST xs => forallb Foldable xs
  | MapAST es => forallb (fun p => Foldable (snd p)) es
  | Wildcard _ => false
  | RowValue _ _ => false
  | ConditionCaseAST cs el =>
      if negb (forallb (fun p => Foldable (fst p) && Foldable (snd p)) cs)
      then false
      else match el with
           | Some x => if negb (Foldable x) then false else true
           | None => true
           end
  | ExpressionCaseAST x cs el =>
      Foldable x &&
      (if negb (forallb (fun p => Foldable (fst p) && Foldable (snd p)) cs)
       then false
       else match el with
            | Some x => if negb (Foldable x) then false else true
            | None => true
            end)
  | RowMeta _ _ => false
  | NumericLiteral _ | FloatLiteral _ | NullLiteral | Missing
  | BoolLiteral _ | StringLiteral _ => true
  end.

(** Whether some row value, row meta or wildcard node of [e] names the
    relation [rel]: the nodes [RenameReferencedRelation] looks at. *)
Fixpoint mentionsRelation (rel : string) (e : Expression) : bool :=
  match e with
  | AliasAST x _ | UnaryOpAST _ x | TypeCastAST x _
  | SortedExpressionAST x _ => mentionsRelation rel x
  | BinaryOpAST _ l r => mentionsRelation rel l || mentionsRelation rel r
  | FuncAppAST _ xs ord =>
      existsb (mentionsRelation rel) xs
      || existsb (fun p => mentionsRelation rel (fst p)) ord
  | ArrayAST xs => existsb (mentionsRelation rel) xs
  | MapAST es => existsb (fun p => mentionsRelation rel (snd p)) es
  | Wildcard r | RowValue r _ | RowMeta r _ => String.eqb r rel
  | ConditionCaseAST cs el =>
      existsb (fun p => mentionsRelation rel (fst p)
                        || mentionsRelation rel (snd p)) cs
      || match el with Some x => mentionsRelation rel x | None => false end
  | ExpressionCaseAST x cs el =>
      mentionsRelation rel x
      || existsb (fun p => mentionsRelation rel (fst p)
                           || mentionsRelation rel (snd p)) cs
      || match el with Some x => mentionsRelation rel x | None => false end
  | NumericLiteral _ | FloatLiteral _ | NullLiteral | Missing
  | BoolLiteral _ | StringLiteral _ => false
  end.

(** Renaming there and back. *)
Definition renameRoundTrip (e : Expression) (from to : string) : Expression :=
  RenameReferencedRelation (RenameReferencedRelation e from to) to from.

(** The round-trip claim as the specification words it. *)
Definition rename_round_trip_is_identity : Prop :=
  forall (e : Expression) (from to : string), renameRoundTrip e from to = e.

End Ast.

(** ** The pipe fabric *)

Module Pipe.

(** Tuples live on the heap and are handed around as [*Tuple]: the heap is a
    list of cells, a pointer is an index into it, and allocation appends. *)
Abbreviation ptr := nat (only parsing).

(** Modelled from the spec: the [Tuple] struct is declared outside the files
    at hand.  Section 3 of the specification gives its fields; [Data] is a Go
    map, that is a reference, so it is carried as the address of the mapping
    and a shallow copy duplicates the address, not the mapping. *)
Record Tuple := mkTuple {
  Data : nat;
  Timestamp : Z;
  ProcTimestamp : Z;
  Flags : Z;
  InputName : string;
  Trace : list (bool * string * Z);
  BatchID : Z
}.

Abbreviation heap := (list Tuple) (only parsing).

(** Modelled from the spec: the flag bitset with its [shared] bit and the
    [IsSet] and [Set] methods of [TupleFlags]. *)
Definition TFShared : Z := 1.

Definition IsSet (flags flag : Z) : bool := negb (Z.land flags flag =? 0).

Definition SetFlag (flags flag : Z) : Z := Z.lor flags flag.

(** Modelled from the spec: [Tuple.ShallowCopy], declared with [Tuple].  The
    copy is a new struct with the fields of the receiver; the receiver is
    only read. *)
Definition ShallowCopy (t : Tuple) : Tuple :=
  mkTuple (Data t) (Timestamp t) (ProcTimestamp t) (Flags t) (InputName t)
    (Trace t) (BatchID t).

Definition withInputName (name : string) (t : Tuple) : Tuple :=
  mkTuple (Data t) (Timestamp t) (ProcTimestamp t) (Flags t) name
    (Trace t) (BatchID t).

Definition withFlags (f : Z) (t : Tuple) : Tuple :=
  mkTuple (Data t) (Timestamp t) (ProcTimestamp t) f (InputName t)
    (Trace t) (BatchID t).

(** Whether the tuple at [p] carries the [shared] flag. *)
Definition sharedAt (h : heap) (p : ptr) : bool :=
  match h !! p with
  | Some t => IsSet (Flags t) TFShared
  | None => false
  end.

(** [atomic.AddInt64]: two's-complement addition on 64 bits. *)
Definition wrap64 (z : Z) : Z := (z + 2 ^ 63) mod 2 ^ 64 - 2 ^ 63.

Definition AddInt64 (x delta : Z) : Z := wrap64 (x + delta).

Inductive QueueDropMode := DropNone | DropLatest | DropOldest.

Inductive error := errPipeClosed.

(** [pipeSender].  [out] is the content of the channel, oldest tuple first,
    and [capacity] the size the channel was made with.  The lock and the
    list of registered fan-outs play no part in [write]. *)
Record pipeSender := mkSender {
  cnt : Z;
  inputName : string;
  out : list ptr;
  capacity : nat;
  dropMode : QueueDropMode;
  closed : bool
}.

Definition withQueue (q : list ptr) (s : pipeSender) : pipeSender :=
  mkSender (cnt s) (inputName s) q (capacity s) (dropMode s) (closed s).

Definition counted (s : pipeSender) : pipeSender :=
  mkSender (AddInt64 (cnt s) 1) (inputName s) (out s) (capacity s)
    (dropMode s) (closed s).

(** A non-blocking send succeeds when the channel has room; no receiver is
    waiting while [write] runs. *)
Definition hasRoom (s : pipeSender) : bool :=
  (length (out s) <? capacity s)%nat.

(** How a call ends: it returns an error value ([None] is [nil]), it stays
    blocked on a channel or a condition variable, it dereferences a pointer
    to no tuple, or the retry loop has not finished within the fuel. *)
Inductive status :=
| Returned (err : option error)
| Blocked
| Panicked
| Spinning.

(** What [write] leaves behind: the heap, the sender, and the arguments of
    the calls it made to [droppedTuple], in order. *)
Record written := mkWritten {
  w_heap : heap;
  w_sender : pipeSender;
  w_dropped : list ptr;
  w_status : status
}.

(** The [sendLoop] of [write] for the two dropping modes. *)
Fixpoint sendLoop (fuel : nat) (h : heap) (s : pipeSender) (t : ptr)
  (calls : list ptr) : written :=
  match fuel with
  | O => mkWritten h s calls Spinning
  | S fuel' =>
      if hasRoom s then
        mkWritten h (counted (withQueue (out s ++ [t]) s)) calls
          (Returned None)
      else
        match dropMode s with
        | DropLatest => mkWritten h s (calls ++ [t]) (Returned None)
        | _ =>
            match out s with
            | dropped :: rest =>
                sendLoop fuel' h (withQueue rest s) t (calls ++ [dropped])
            | [] => sendLoop fuel' h s t calls
            end
        end
  end.

(** The tuple that goes out: a shallow copy at a new address when the
    incoming one is shared, the incoming one otherwise; then the assignment
    to its [InputName]. *)
Definition outgoing (h : heap) (s : pipeSender) (inp : ptr) (tup : Tuple)
  : ptr * heap :=
  let '(t, h1) :=
    if IsSet (Flags tup) TFShared
    then (length h, h ++ [ShallowCopy tup])
    else (inp, h) in
  (t, alter (withInputName (inputName s)) t h1).

(** [pipeSender.write]. *)
Definition write (fuel : nat) (h : heap) (s : pipeSender) (inp : ptr)
  : written :=
  if closed s then mkWritten h s [] (Returned (Some errPipeClosed))
  else
    match h !! inp with
    | None => mkWritten h s [] Panicked
    | Some tup =>
        let '(t, h') := outgoing h s inp tup in
        match dropMode s with
        | DropNone =>
            if hasRoom s then
              mkWritten h' (counted (withQueue (out s ++ [t]) s)) []
                (Returned None)
            else mkWritten h' s [] Blocked
        | _ => sendLoop fuel h' s t []
        end
    end.

(** The claim about what [write] enqueues as the specification words it:
    on an open sender the outgoing tuple is always enqueued. *)
Definition write_always_enqueues : Prop :=
  forall (fuel : nat) (h : heap) (s : pipeSender) (inp : ptr) (tup : Tuple),
    closed s = false ->
    h !! inp = Some tup ->
    let r := write (S (S fuel)) h s inp in
    exists t : ptr,
      out (w_sender r) = out s ++ [t] /\
      (if IsSet (Flags tup) TFShared
       then t <> inp /\
            w_heap r !! inp = Some tup /\
            w_heap r !! t = Some (withInputName (inputName s) (ShallowCopy tup))
       else t = inp /\
            w_heap r !! t = Some (withInputName (inputName s) tup)).

(** [ddEvent] and the reports made through [ctx.droppedTuple]. *)
Inductive ddEvent := ddeNewConn | ddeDisconnect.

Record report := mkReport {
  r_tuple : ptr;
  r_nodeName : string;
  r_message : string
}.

(** [dataDestinations].  [dsts] lists the map in the order in which the
    [range] loop of this call visits it; a [nil] map has no entries. *)
Record dataDestinations := mkDests {
  numSent : Z;
  numDropped : Z;
  nodeName : string;
  dsts : list (string * pipeSender);
  paused : bool;
  hasCallback : bool
}.

(** The [range] loop of [Write] over the destinations. *)
Record looped := mkLooped {
  l_heap : heap;
  l_dsts : list (string * pipeSender);
  l_reports : list report;
  l_closed : list string;
  l_status : status
}.

Fixpoint writeAll (fuel : nat) (node : string) (h : heap) (t : ptr)
  (ds : list (string * pipeSender)) (reports : list report)
  (closedNames : list string) : looped :=
  match ds with
  | [] => mkLooped h [] reports closedNames (Returned None)
  | (name, dst) :: rest =>
      let r := write fuel h dst t in
      let reports' :=
        reports ++ map (fun _ => mkReport t node "the output queue is full")
                     (w_dropped r) in
      match w_status r with
      | Returned err =>
          let closedNames' :=
            match err with
            | Some _ => closedNames ++ [name]
            | None => closedNames
            end in
          let l := writeAll fuel node (w_heap r) t rest reports' closedNames' in
          mkLooped (l_heap l) ((name, w_sender r) :: l_dsts l) (l_reports l)
            (l_closed l) (l_status l)
      | st =>
          mkLooped (w_heap r) ((name, w_sender r) :: rest) reports'
            closedNames st
      end
  end.

(** [t.Flags.Set(TFShared)] when there is more than one destination; the
    assignment dereferences [t]. *)
Definition markShared (d : dataDestinations) (h : heap) (t : ptr)
  : option heap :=
  if (1 <? length (dsts d))%nat then
    match h !! t with
    | Some tup => Some (<[t := withFlags (SetFlag (Flags tup) TFShared) tup]> h)
    | None => None
    end
  else Some h.

Record broadcast := mkBroadcast {
  b_heap : heap;
  b_dests : dataDestinations;
  b_reports : list report;
  b_events : list ddEvent;
  b_status : status
}.

Definition removeClosed (names : list string) (ds : list (string * pipeSender))
  : list (string * pipeSender) :=
  filter (fun p => fst p ∉ names) ds.

(** [dataDestinations.Write].  [logDestinationless] is the context's
    [DestinationlessTupleLog] flag. *)
Definition Write (fuel : nat) (logDestinationless : bool)
  (d : dataDestinations) (h : heap) (t : ptr) : broadcast :=
  if paused d then mkBroadcast h d [] [] Blocked
  else if (length (dsts d) =? 0)%nat then
    mkBroadcast h
      (mkDests (numSent d) (AddInt64 (numDropped d) 1) (nodeName d) (dsts d)
         (paused d) (hasCallback d))
      (if logDestinationless
       then [mkReport t (nodeName d) "no output destination is connected"]
       else [])
      [] (Returned None)
  else
    match markShared d h t with
    | None => mkBroadcast h d [] [] Panicked
    | Some h1 =>
        let l := writeAll fuel (nodeName d) h1 t (dsts d) [] [] in
        match l_status l with
        | Returned _ =>
            let ds' :=
              match l_closed l with
              | [] => l_dsts l
              | names => removeClosed names (l_dsts l)
              end in
            let events :=
              match l_closed l with
              | [] => []
              | _ => if (length ds' =? 0)%nat && hasCallback d
                     then [ddeDisconnect] else []
              end in
            mkBroadcast (l_heap l)
              (mkDests (AddInt64 (numSent d) 1) (numDropped d) (nodeName d) ds'
                 (paused d) (hasCallback d))
              (l_reports l) events (Returned None)
        | st =>
            mkBroadcast (l_heap l)
              (mkDests (numSent d) (numDropped d) (nodeName d) (l_dsts l)
                 (paused d) (hasCallback d))
              (l_reports l) [] st
        end
    end.

(** A tuple and a sender to run the definitions on. *)
Definition sampleTuple (flags : Z) : Tuple :=
  mkTuple 0 10 11 flags "upstream" [] 1.

Definition sampleSender (q : list ptr) (c : nat) (m : QueueDropMode)
  (isClosed : bool) : pipeSender :=
  mkSender 5 "edge" q c m isClosed.

End Pipe.

(** ** The entry point of the BQL parser *)

Module Parser.

(** A Go call either returns or panics with a value. *)
Inductive go (V A : Type) :=
| Ret (a : A)
| Panic (v : V).
Arguments Ret {V A} a.
Arguments Panic {V A} v.

Definition bind {V A B : Type} (m : go V A) (k : A -> go V B) : go V B :=
  match m with
  | Ret a => k a
  | Panic v => Panic v
  end.

(** [defer func() { if r := recover(); r != nil { ... } }()] around a body
    whose named results still hold their zero values when it panics. *)
Definition recovering {V A : Type} (body : go V A) (handler : V -> A)
  : go V A :=
  match body with
  | Ret a => Ret a
  | Panic v => Ret (handler v)
  end.

(** [unicode.IsSpace] on the Latin-1 range, and the predicate [ParseStmt]
    trims with. *)
Definition isSpace (c : ascii) : bool :=
  let n := Z.of_nat (nat_of_ascii c) in
  ((9 <=? n) && (n <=? 13)) || (n =? 32) || (n =? 133) || (n =? 160).

Definition isSpaceOrSemicolon (c : ascii) : bool :=
  isSpace c || (Z.of_nat (nat_of_ascii c) =? 59).

(** [strings.TrimLeftFunc]. *)
Fixpoint TrimLeftFunc (s : string) (f : ascii -> bool) : string :=
  match s with
  | EmptyString => EmptyString
  | String c s' => if f c then TrimLeftFunc s' f else s
  end.

Fixpoint dropRunes (n : nat) (s : string) : string :=
  match n, s with
  | O, _ => s
  | S n', String _ s' => dropRunes n' s'
  | S _, EmptyString => EmptyString
  end.

Section Backend.

(** The generated PEG backend and the parse stack are declared outside the
    files at hand.  [statement] is what the stack holds, [raised] what the
    backend and the tree constructors pass to [panic], [describe] how [%v]
    prints a panic value, [Parse] the outcome of [b.Init(); b.Parse()] and
    [Execute] the parse stack, top first, that [b.Execute()] leaves. *)
Variable statement : Type.
Variable raised : Type.

Inductive panicValue :=
| RuntimeError (msg : string)
| Raised (v : raised).

Variable describe : panicValue -> string.
Variable Parse : string -> go panicValue (option string).
Variable Execute : string -> go panicValue (list (Z * Z * statement)).

(** [[]rune(s)[end:]]: a slice expression panics out of range. *)
Definition sliceFrom (s : string) (i : Z) : go panicValue string :=
  if (0 <=? i) && (i <=? Z.of_nat (String.length s))
  then Ret (dropRunes (Z.to_nat i) s)
  else Panic (RuntimeError "slice bounds out of range").

Definition results : Type := option statement * string * option string.

(** The body of [ParseStmt], without the deferred function. *)
Definition ParseStmt_body (s : string) : go panicValue results :=
  bind (Parse s) (fun err =>
    match err with
    | Some e => Ret (None, EmptyString, Some e)
    | None =>
        bind (Execute s) (fun parseStack =>
          match parseStack with
          | [] =>
              Ret (None, EmptyString,
                   Some "no valid BQL statement could be parsed"%string)
          | (_, end_, comp) :: _ =>
              bind (sliceFrom s end_) (fun tail =>
                Ret (Some comp, TrimLeftFunc tail isSpaceOrSemicolon, None))
          end)
    end).

(** [BQLParser.ParseStmt]. *)
Definition ParseStmt (s : string) : go panicValue results :=
  recovering (ParseStmt_body s)
    (fun r =>
       (None, EmptyString,
        Some (String.append "Error in BQL parser: " (describe r)))).

End Backend.

End Parser.

(** ** The generic UDF bridge *)

Module Udf.

(** [reflect.Kind]. *)
Inductive Kind :=
| Invalid | Bool | Int | Int8 | Int16 | Int32 | Int64
| Uint | Uint8 | Uint16 | Uint32 | Uint64 | Uintptr
| Float32 | Float64 | Complex64 | Complex128
| Array | Chan | Func | Interface | Map | Ptr | Slice | String_ | Struct
| UnsafePointer.

Definition isSlice (k : Kind) : bool :=
  match k with Slice => true | _ => false end.

Definition isFunc (k : Kind) : bool :=
  match k with Func => true | _ => false end.

(** A [reflect.Type] as the bridge observes it: its kind, whether a
    [*core.Context] is assignable to it, and for a function type its
    parameters, its results and whether it is variadic. *)
Inductive rtype :=
| RType (kind : Kind) (acceptsContext : bool) (ins outs : list rtype)
    (variadic : bool).

Definition KindOf (t : rtype) : Kind :=
  match t with RType k _ _ _ _ => k end.

Definition AcceptsContext (t : rtype) : bool :=
  match t with RType _ c _ _ _ => c end.

Definition Ins (t : rtype) : list rtype :=
  match t with RType _ _ i _ _ => i end.

Definition IsVariadic (t : rtype) : bool :=
  match t with RType _ _ _ _ v => v end.

Definition NumIn (t : rtype) : Z := Z.of_nat (length (Ins t)).

(** [genericFuncHasContext]. *)
Definition genericFuncHasContext (t : rtype) : bool :=
  match Ins t with
  | [] => false
  | c :: _ => AcceptsContext c
  end.

Inductive error :=
| ErrNotFunction
| ErrNoArgument
| ErrNoAggregationParameter
| ErrParamsLength
| ErrNotSlice (position : Z)
| ErrOther (msg : string).

(** The number of arguments after the context. *)
Definition argumentCount (t : rtype) : Z :=
  if genericFuncHasContext t then NumIn t - 1 else NumIn t.

Section Bridge.

(** [checkGenericFuncReturnTypes] and [createGenericConverters] rest on
    [data.NewValue] and on the value converters, declared outside the files
    at hand; [convertGenericAggregate] reaches them after its own checks. *)
Variable converter : Type.
Variable checkGenericFuncReturnTypes : rtype -> error + bool.
Variable createGenericConverters : rtype -> Z -> error + list converter.

Record genericFunc := mkGenericFunc {
  function : rtype;
  hasContext : bool;
  hasError : bool;
  variadic : bool;
  arity : Z;
  aggregationParameter : list bool;
  converters : list converter
}.

(** The loop that looks for a [true] entry of the mask. *)
Definition hasTrue (aggParams : list bool) : bool := existsb id aggParams.

(** The kind of the [i]-th argument after the context.  The loop reads it
    for [i] below the arity only, where the index is in range. *)
Definition argKind (t : rtype) (ctx : bool) (i : nat) : Kind :=
  match Ins t !! (if ctx then S i else i) with
  | Some a => KindOf a
  | None => Invalid
  end.

(** The loop over the arguments: the first aggregation parameter that is
    not a slice, if any. *)
Definition firstNonSlice (t : rtype) (ctx : bool) (aggParams : list bool)
  (n : nat) : option nat :=
  List.find
    (fun i => match aggParams !! i with
              | Some true => negb (isSlice (argKind t ctx i))
              | _ => false
              end)
    (seq 0 n).

(** [convertGenericAggregate], on the dynamic type of [function]. *)
Definition convertGenericAggregate (t : rtype) (aggParams : list bool)
  (isAggregate : bool) : error + genericFunc :=
  if negb (isFunc (KindOf t)) then inl ErrNotFunction
  else
    let ctx := genericFuncHasContext t in
    let ar := if ctx then NumIn t - 1 else NumIn t in
    if isAggregate && (ar =? 0) then inl ErrNoArgument
    else if isAggregate && negb (hasTrue aggParams)
    then inl ErrNoAggregationParameter
    else if negb (ar =? Z.of_nat (length aggParams)) then inl ErrParamsLength
    else
      match firstNonSlice t ctx aggParams (Z.to_nat ar) with
      | Some i => inl (ErrNotSlice (Z.of_nat i + 1))
      | None =>
          match checkGenericFuncReturnTypes t with
          | inl e => inl e
          | inr hasErr =>
              match createGenericConverters t (NumIn t - ar) with
              | inl e => inl e
              | inr convs =>
                  inr (mkGenericFunc t ctx hasErr (IsVariadic t) ar
                         aggParams convs)
              end
          end
      end.

(** [ConvertGenericAggregate]. *)
Definition ConvertGenericAggregate (t : rtype) (aggParams : list bool)
  : error + genericFunc :=
  convertGenericAggregate t aggParams true.

(** [ConvertGeneric]: no argument is an aggregation parameter. *)
Definition ConvertGeneric (t : rtype) : error + genericFunc :=
  if negb (isFunc (KindOf t)) then inl ErrNotFunction
  else
    convertGenericAggregate t
      (replicate (Z.to_nat (argumentCount t)) false) false.

(** [genericFunc.Accept]. *)
Definition Accept (g : genericFunc) (n : Z) : bool :=
  if n <? arity g then
    if variadic g && (n =? arity g - 1) then true else false
  else if negb (n =? arity g) && negb (variadic g) then false
  else true.

End Bridge.

(** Function types used below: [func(int) int], [func([]int) int] and
    a variadic function of a context, a string and further integers. *)
Definition intType : rtype := RType Int false [] [] false.
Definition stringType : rtype := RType String_ false [] [] false.
Definition sliceType : rtype := RType Slice false [] [] false.
Definition contextType : rtype := RType Ptr true [] [] false.
Definition scalarFunc : rtype := RType Func false [intType] [intType] false.
Definition sliceFunc : rtype := RType Func false [sliceType] [intType] false.
Definition variadicFunc : rtype :=
  RType Func false [contextType; stringType; sliceType] [intType] true.

Definition noCheck (t : rtype) : error + bool := inr false.
Definition noConverters (t : rtype) (argStart : Z) : error + list unit :=
  inr (map (fun _ => tt) (drop (Z.to_nat argStart) (Ins t))).

End Udf.

(** ** Referenced relations *)

Module Relations.
Import Ast.
Import Parser.

(** The one run-time error [ReferencedRelations] can raise: an assignment
    to an entry of a [nil] map. *)
Inductive fault := nilMapAssignment.

(** A [map[string]bool] whose entries are all [true], or [nil]. *)
Abbreviation relset := (option (gset string)) (only parsing).

Definition entries (m : option (gset string)) : gset string :=
  match m with
  | Some s => s
  | None => ∅
  end.

Section Loops.

Context {A : Type}.
Variable f : A -> go fault (option (gset string)).

(** [for _, x := range xs { for rel := range x.ReferencedRelations() {
    rels[rel] = true } }] on a map that is not [nil]. *)
Definition addAll : list A -> gset string -> go fault (gset string) :=
  fix loop (xs : list A) (rels : gset string) :=
    match xs with
    | [] => Ret rels
    | x :: xs' => bind (f x) (fun m => loop xs' (rels ∪ entries m))
    end.

End Loops.

(** [ReferencedRelations()], node by node. *)
Fixpoint ReferencedRelations (e : Expression) : go fault (option (gset string)) :=
  match e with
  | AliasAST x _ | UnaryOpAST _ x | TypeCastAST x _
  | SortedExpressionAST x _ => ReferencedRelations x
  | BinaryOpAST _ l r =>
      bind (ReferencedRelations l) (fun rels =>
        match rels with
        | None => ReferencedRelations r
        | Some s =>
            bind (ReferencedRelations r) (fun m => Ret (Some (s ∪ entries m)))
        end)
  | FuncAppAST _ xs ord =>
      bind (addAll ReferencedRelations xs ∅) (fun rels =>
        bind (addAll (fun p => ReferencedRelations (fst p)) ord rels)
          (fun rels' => Ret (Some rels')))
  | ArrayAST xs =>
      bind (addAll ReferencedRelations xs ∅) (fun rels => Ret (Some rels))
  | MapAST es =>
      bind (addAll (fun p => ReferencedRelations (snd p)) es ∅)
        (fun rels => Ret (Some rels))
  | Wildcard rel =>
      if String.eqb rel "" then Ret None else Ret (Some {[ rel ]})
  | RowValue rel _ => Ret (Some {[ rel ]})
  | RowMeta rel _ => Ret (Some {[ rel ]})
  | ConditionCaseAST cs el =>
      bind (addAll
              (fun p =>
                 bind (ReferencedRelations (fst p)) (fun w =>
                   bind (ReferencedRelations (snd p)) (fun t =>
                     Ret (Some (entries w ∪ entries t)))))
              cs ∅)
        (fun rels =>
           match el with
           | Some x =>
               bind (ReferencedRelations x)
                 (fun m => Ret (Some (rels ∪ entries m)))
           | None => Ret (Some rels)
           end)
  | ExpressionCaseAST x cs el =>
      bind (ReferencedRelations x) (fun rels =>
        bind (bind (addAll
                      (fun p =>
                         bind (ReferencedRelations (fst p)) (fun w =>
                           bind (ReferencedRelations (snd p)) (fun t =>
                             Ret (Some (entries w ∪ entries t)))))
                      cs ∅)
                (fun inner =>
                   match el with
                   | Some y =>
                       bind (ReferencedRelations y)
                         (fun m => Ret (inner ∪ entries m))
                   | None => Ret inner
                   end))
          (fun inner =>
             match rels with
             | Some s => Ret (Some (s ∪ inner))
             | None =>
                 if decide (inner = ∅) then Ret None
                 else Panic nilMapAssignment
             end))
  | NumericLiteral _ | FloatLiteral _ | NullLiteral | Missing
  | BoolLiteral _ | StringLiteral _ => Ret None
  end.

(** Whether [e] refers to the relation [rel]: a row value or a row meta of
    that relation, or a wildcard of it; the bare wildcard refers to no
    relation. *)
Fixpoint refersTo (rel : string) (e : Expression) : bool :=
  match e with
  | AliasAST x _ | UnaryOpAST _ x | TypeCastAST x _
  | SortedExpressionAST x _ => refersTo rel x
  | BinaryOpAST _ l r => refersTo rel l || refersTo rel r
  | FuncAppAST _ xs ord =>
      existsb (refersTo rel) xs || existsb (fun p => refersTo rel (fst p)) ord
  | ArrayAST xs => existsb (refersTo rel) xs
  | MapAST es => existsb (fun p => refersTo rel (snd p)) es
  | Wildcard r => negb (String.eqb r "") && String.eqb r rel
  | RowValue r _ | RowMeta r _ => String.eqb r rel
  | ConditionCaseAST cs el =>
      existsb (fun p => refersTo rel (fst p) || refersTo rel (snd p)) cs
      || match el with Some x => refersTo rel x | None => false end
  | ExpressionCaseAST x cs el =>
      refersTo rel x
      || existsb (fun p => refersTo rel (fst p) || refersTo rel (snd p)) cs
      || match el with Some x => refersTo rel x | None => false end
  | NumericLiteral _ | FloatLiteral _ | NullLiteral | Missing
  | BoolLiteral _ | StringLiteral _ => false
  end.

(** The relation names of a set after renaming [from] to [to]. *)
Definition renamed (from to : string) (s : gset string) : gset string :=
  set_map (fun r : string => if String.eqb r from then to else r) s.

(** Whether [e] contains a CASE expression with an operand. *)
Fixpoint hasCaseOperand (e : Expression) : bool :=
  match e with
  | AliasAST x _ | UnaryOpAST _ x | TypeCastAST x _
  | SortedExpressionAST x _ => hasCaseOperand x
  | BinaryOpAST _ l r => hasCaseOperand l || hasCaseOperand r
  | FuncAppAST _ xs ord =>
      existsb hasCaseOperand xs || existsb (fun p => hasCaseOperand (fst p)) ord
  | ArrayAST xs => existsb hasCaseOperand xs
  | MapAST es => existsb (fun p => hasCaseOperand (snd p)) es
  | ConditionCaseAST cs el =>
      existsb (fun p => hasCaseOperand (fst p) || hasCaseOperand (snd p)) cs
      || match el with Some x => hasCaseOperand x | None => false end
  | ExpressionCaseAST _ _ _ => true
  | _ => false
  end.

(** A result of [ReferencedRelations] with [from] renamed to [to] in it. *)
Definition lifted (from to : string) (m : go fault (option (gset string)))
  : go fault (option (gset string)) :=
  match m with
  | Ret o => Ret (renamed from to <$> o)
  | Panic v => Panic v
  end.

End Relations.

(** ** Row references, wildcards and string literals from and to text *)

Module AstText.
Import Ast Parser.

(** Strings are sequences of one-byte runes here, as in [Parser]. *)
Definition len (s : string) : Z := Z.of_nat (String.length s).

(** [strings.Index(s, sep)] for a separator of one character: the index of
    its first occurrence, or -1. *)
Fixpoint Index (s : string) (sep : ascii) : Z :=
  match s with
  | EmptyString => -1
  | String c s' =>
      if Ascii.eqb c sep then 0
      else let i := Index s' sep in if i <? 0 then -1 else i + 1
  end.

(** [strings.SplitN(s, sep, 2)] for a separator of one character: the whole
    string when the separator does not occur, otherwise what precedes and
    what follows its first occurrence. *)
Fixpoint SplitN (s : string) (sep : ascii) : string * option string :=
  match s with
  | EmptyString => (EmptyString, None)
  | String c s' =>
      if Ascii.eqb c sep then (EmptyString, Some s')
      else let '(a, b) := SplitN s' sep in (String c a, b)
  end.

Definition inCutset (cutset : string) (c : ascii) : bool :=
  existsb (Ascii.eqb c) (String.list_ascii_of_string cutset).

(** [strings.TrimRight(s, cutset)]. *)
Fixpoint TrimRight (s : string) (cutset : string) : string :=
  match s with
  | EmptyString => EmptyString
  | String c s' =>
      match TrimRight s' cutset with
      | EmptyString => if inCutset cutset c then EmptyString
                       else String c EmptyString
      | r => String c r
      end
  end.

(** [strings.Replace(s, old, new, -1)]: the occurrences of [old] that do not
    overlap, from the left.  [skip] counts the characters of an occurrence
    still to pass over.  With an empty [old], [new] is put before every
    character and at the end. *)
Fixpoint replaceFrom (old new : string) (skip : nat) (s : string) : string :=
  match s with
  | EmptyString => EmptyString
  | String c s' =>
      match skip with
      | S k => replaceFrom old new k s'
      | O =>
          if String.prefix old s
          then String.append new
                 (replaceFrom old new (Nat.pred (String.length old)) s')
          else String c (replaceFrom old new O s')
      end
  end.

Fixpoint interleave (new : string) (s : string) : string :=
  match s with
  | EmptyString => new
  | String c s' => String.append new (String c (interleave new s'))
  end.

Definition Replace (s old new : string) : string :=
  match old with
  | EmptyString => interleave new s
  | _ => replaceFrom old new O s
  end.

Definition quote : ascii := "034"%char.
Definition colon : ascii := ":"%char.
Definition bracket : ascii := "["%char.

(** [NewRowValue]. *)
Definition NewRowValue (s : string) : Expression :=
  let bracketPos := Index s bracket in
  let '(first, second) := SplitN s colon in
  if (0 <=? bracketPos) && (bracketPos <? len first) then RowValue "" s
  else match second with
       | None => RowValue "" first
       | Some column => RowValue first column
       end.

(** [RowValue.String]. *)
Definition RowValue_String (Relation Column : string) : string :=
  if negb (String.eqb Relation "")
  then String.append Relation (String colon Column)
  else Column.

(** [MetaInformation.string], [RowMeta.String] and [NewRowMeta]. *)
Definition MetaInformation_string (m : MetaInformation) : string :=
  match m with
  | TimestampMeta => "ts()"
  | NowMeta => "now()"
  | UnknownMeta => "UnknownMeta"
  end.

Definition RowMeta_String (Relation : string) (m : MetaInformation) : string :=
  if negb (String.eqb Relation "")
  then String.append Relation (String colon (MetaInformation_string m))
  else MetaInformation_string m.

Definition NewRowMeta (s : string) (t : MetaInformation) : Expression :=
  match SplitN s colon with
  | (_, None) => RowMeta "" t
  | (first, Some _) => RowMeta first t
  end.

(** [NewWildcard] and [Wildcard.String]. *)
Definition NewWildcard (relation : string) : Expression :=
  Wildcard (TrimRight relation ":*").

Definition Wildcard_String (Relation : string) : string :=
  if negb (String.eqb Relation "") then String.append Relation ":*" else "*".


Fixpoint takeRunes (n : nat) (s : string) : string :=
  match n, s with
  | S n', String c s' => String c (takeRunes n' s')
  | _, _ => EmptyString
  end.

(** [runes[lo:hi]]: a slice expression panics unless
    [0 <= lo <= hi <= len(runes)]. *)
Definition sliceRunes (s : string) (lo hi : Z) : go string string :=
  if (0 <=? lo) && (lo <=? hi) && (hi <=? len s)
  then Ret (takeRunes (Z.to_nat (hi - lo)) (dropRunes (Z.to_nat lo) s))
  else Panic "slice bounds out of range"%string.

(** [NewStringLiteral]: the text without its first and last character, each
    doubled quote in it made single. *)
Definition NewStringLiteral (s : string) : go string Expression :=
  bind (sliceRunes s 1 (len s - 1)) (fun stripped =>
    Ret (StringLiteral
           (Replace stripped (String quote (String quote EmptyString))
              (String quote EmptyString)))).

(** Whether [c] occurs in [s]. *)
Definition occurs (c : ascii) (s : string) : bool :=
  existsb (Ascii.eqb c) (String.list_ascii_of_string s).

(** The last character of [s], if any. *)
Fixpoint lastRune (s : string) : option ascii :=
  match s with
  | EmptyString => None
  | String c EmptyString => Some c
  | String _ s' => lastRune s'
  end.

End AstText.

(** ** Parsing several statements *)

Module Statements.
Import Parser.

(** [strings.TrimRightFunc] and [strings.TrimSpace]. *)
Fixpoint TrimRightFunc (s : string) (f : ascii -> bool) : string :=
  match s with
  | EmptyString => EmptyString
  | String c s' =>
      match TrimRightFunc s' f with
      | EmptyString => if f c then EmptyString else String c EmptyString
      | r => String c r
      end
  end.

Definition TrimSpace (s : string) : string :=
  TrimLeftFunc (TrimRightFunc s isSpace) isSpace.

Section Backend.

Variable statement : Type.
Variable raised : Type.
Variable describe : panicValue raised -> string.
Variable Parse : string -> go (panicValue raised) (option string).
Variable Execute :
  string -> go (panicValue raised) (list (Z * Z * statement)).

(** The loop of [ParseStmts]: [None] while the loop has not ended within
    the fuel.  A result is the slice of parsed statements with a [nil]
    error, or a [nil] slice with the error. *)
Fixpoint parseLoop (fuel : nat) (rest : string)
  (results : list (option statement))
  : option (go (panicValue raised)
              (option (list (option statement)) * option string)) :=
  match fuel with
  | O => None
  | S fuel' =>
      if String.eqb rest "" then Some (Ret (Some results, None))
      else
        match ParseStmt statement raised describe Parse Execute rest with
        | Panic v => Some (Panic v)
        | Ret (result, restTmp, Some err) => Some (Ret (None, Some err))
        | Ret (result, restTmp, None) =>
            parseLoop fuel' restTmp (results ++ [result])
        end
  end.

(** [BQLParser.ParseStmts]. *)
Definition ParseStmts (fuel : nat) (s : string) :=
  parseLoop fuel (TrimSpace s) [].

(** The backend makes progress when the statement it leaves on top of the
    stack ends after at least one character. *)
Definition progresses : Prop :=
  forall (s : string) (b e : Z) (comp : statement)
         (below : list (Z * Z * statement)),
    Execute s = Ret ((b, e, comp) :: below) -> 1 <= e.

End Backend.

End Statements.

(** ** Calling a generic UDF *)

Module UdfCall.
Import Udf.







Section Call.

(** [data.Value] and the converted arguments are declared outside the files
    at hand; so are the converters of the single kinds, taken here as the
    function [genericFuncArgumentConverter] and [reflect.Type.Elem]. *)
Variable value : Type.
Variable arg : Type.
Variable genericFuncArgumentConverter :
  rtype -> error + (value -> error + arg).
Variable Elem : rtype -> rtype.

Abbreviation argumentConverter := (value -> error + arg) (only parsing).

(** The loop of [createGenericConverters] from index [i] on; [n] is
    [t.NumIn()]. *)
Fixpoint convertersFrom (i n : nat) (isVariadic : bool) (args : list rtype)
  (convs : list (value -> error + arg))
  : error + list (value -> error + arg) :=
  match args with
  | [] => inr convs
  | a :: rest =>
      let a' := if (i =? n - 1)%nat && isVariadic then Elem a else a in
      match genericFuncArgumentConverter a' with
      | inl e => inl e
      | inr c => convertersFrom (S i) n isVariadic rest (convs ++ [c])
      end
  end.

(** [createGenericConverters]. *)
Definition createGenericConverters (t : rtype) (argStart : Z)
  : error + list (value -> error + arg) :=
  convertersFrom (Z.to_nat argStart) (length (Ins t)) (IsVariadic t)
    (drop (Z.to_nat argStart) (Ins t)) [].

Inductive callError :=
| ErrInsufficient
| ErrTooMany
| ErrConversion (e : error).

(** What is handed to the function: the context or a converted value. *)
Inductive passed :=
| ContextArg
| Converted (a : arg).

(** How [call] ends: with an error, with an index out of range, or with
    the function called on the values gathered. *)
Inductive called :=
| CallFails (e : callError)
| CallPanics
| Calls (ins : list passed).

(** The first loop of [call]: arguments [i] up to [variadicBegin], each
    with its own converter. *)
Fixpoint convertFixed (count i : nat) (convs : list (value -> error + arg))
  (args : list value) (ins : list passed) : called :=
  match count with
  | O => Calls ins
  | S count' =>
      match convs !! i, args !! i with
      | Some c, Some v =>
          match c v with
          | inl e => CallFails (ErrConversion e)
          | inr a => convertFixed count' (S i) convs args (ins ++ [Converted a])
          end
      | _, _ => CallPanics
      end
  end.

(** The second loop: the arguments that are left, all with the last
    converter. *)
Fixpoint convertVariadic (convs : list (value -> error + arg))
  (args : list value) (ins : list passed) : called :=
  match args with
  | [] => Calls ins
  | v :: rest =>
      match last convs with
      | Some c =>
          match c v with
          | inl e => CallFails (ErrConversion e)
          | inr a => convertVariadic convs rest (ins ++ [Converted a])
          end
      | None => CallPanics
      end
  end.

(** The second half of [call]: the context, then the converted
    arguments. *)
Definition convertArguments (g : genericFunc (value -> error + arg))
  (args : list value) : called :=
  let n := Z.of_nat (length args) in
  let ins := if hasContext _ g then [ContextArg] else [] in
  let variadicBegin := if variadic _ g then arity _ g - 1 else arity _ g in
  if variadicBegin <? 0 then
    if variadicBegin <? n then CallPanics else Calls ins
  else
    match convertFixed (Z.to_nat variadicBegin) 0 (converters _ g) args ins with
    | Calls ins' =>
        convertVariadic (converters _ g)
          (drop (Z.to_nat variadicBegin) args) ins'
    | other => other
    end.

(** [genericFunc.call]. *)
Definition call (g : genericFunc (value -> error + arg)) (args : list value)
  : called :=
  let n := Z.of_nat (length args) in
  let ar := arity _ g in
  if (n <? ar) && negb (variadic _ g && (n =? ar - 1))
  then CallFails ErrInsufficient
  else if negb (n <? ar) && negb (n =? ar) && negb (variadic _ g)
  then CallFails ErrTooMany
  else convertArguments g args.

(** [genericFunc.IsAggregationParameter]: [None] when an index is out of
    range. *)
Definition IsAggregationParameter (g : genericFunc (value -> error + arg))
  (k : Z) : option bool :=
  let mask := aggregationParameter _ g in
  if Z.of_nat (length mask) <=? k then
    if variadic _ g then last mask else Some false
  else if k <? 0 then None
  else mask !! Z.to_nat k.

(** What every Go function type satisfies: a variadic function has its
    variadic parameter, which is not the context. *)
Definition wellFormed (t : rtype) : Prop :=
  IsVariadic t = true -> 1 <= argumentCount t.

End Call.

Arguments ContextArg {arg}.
Arguments Converted {arg} a.
Arguments CallFails {arg} e.
Arguments CallPanics {arg}.
Arguments Calls {arg} ins.

(** Converters to run the definitions on: integers handed on as they are. *)
Definition plainConverter (t : rtype) : error + (Z -> error + Z) :=
  inr (fun v : Z => inr v).

Definition sameElem (t : rtype) : rtype := t.

End UdfCall.

(** ** Closing pipes and fan-outs *)

Module Lifecycle.
Import Pipe.

(** A [pipeSender] with the field [write] does not read: the fan-outs it
    is registered with, each under the name it has there.  A fan-out is
    referred to by a number. *)
Record endpoint := mkEndpoint {
  ep_sender : pipeSender;
  ep_registeredDsts : list (string * nat)
}.

Definition markClosed (s : pipeSender) : pipeSender :=
  mkSender (cnt s) (inputName s) (out s) (capacity s) (dropMode s) true.

(** [pipeSender.close]: the sender afterwards, and the removals it starts
    in goroutines, one for each registration. *)
Definition close (e : endpoint) : endpoint * list (string * nat) :=
  if closed (ep_sender e) then (e, [])
  else (mkEndpoint (markClosed (ep_sender e)) [], ep_registeredDsts e).

(** [pipeSender.registered]. *)
Definition registered (name : string) (dst : nat) (e : endpoint) : endpoint :=
  mkEndpoint (ep_sender e) (ep_registeredDsts e ++ [(name, dst)]).

(** [pipeSender.count], [queueStatus] and [isClosed]. *)
Definition count (e : endpoint) : Z := cnt (ep_sender e).

Definition queueStatus (e : endpoint) : Z * Z :=
  if closed (ep_sender e) then (0, 0)
  else (Z.of_nat (length (out (ep_sender e))),
        Z.of_nat (capacity (ep_sender e))).

Definition isClosed (e : endpoint) : bool := closed (ep_sender e).

(** [dataDestinations] with its map as it is between calls: [None] is the
    [nil] map [Close] leaves, and the entries have one key each. *)
Record destinations := mkDestinations {
  dd_id : nat;
  dd_numSent : Z;
  dd_numDropped : Z;
  dd_nodeName : string;
  dd_dsts : option (list (string * endpoint));
  dd_paused : bool;
  dd_hasCallback : bool
}.

Definition withDsts (m : option (list (string * endpoint))) (d : destinations)
  : destinations :=
  mkDestinations (dd_id d) (dd_numSent d) (dd_numDropped d) (dd_nodeName d) m
    (dd_paused d) (dd_hasCallback d).

Inductive addError := errOutputClosed | errDestinationExists.

Definition entry (name : string) (m : list (string * endpoint))
  : option endpoint :=
  snd <$> List.find (fun p => String.eqb (fst p) name) m.

Definition without (name : string) (m : list (string * endpoint))
  : list (string * endpoint) :=
  List.filter (fun p => negb (String.eqb (fst p) name)) m.

(** [dataDestinations.add]: the error, the fan-out afterwards and the
    events its callback is called with. *)
Definition add (name : string) (s : endpoint) (d : destinations)
  : option addError * destinations * list ddEvent :=
  match dd_dsts d with
  | None => (Some errOutputClosed, d, [])
  | Some m =>
      match entry name m with
      | Some _ => (Some errDestinationExists, d, [])
      | None =>
          (None,
           withDsts (Some (m ++ [(name, registered name (dd_id d) s)])) d,
           if dd_hasCallback d then [ddeNewConn] else [])
      end
  end.

(** What a call that closes senders leaves behind: the fan-out, the
    senders it closed, the removals those started, and the events handed to
    the callback in goroutines. *)
Record closing := mkClosing {
  c_dests : destinations;
  c_closed : list endpoint;
  c_removals : list (string * nat);
  c_events : list ddEvent
}.

(** [dataDestinations.remove]. *)
Definition remove (name : string) (d : destinations) : closing :=
  match dd_dsts d with
  | None => mkClosing d [] [] []
  | Some m =>
      match entry name m with
      | None => mkClosing d [] [] []
      | Some dst =>
          let m' := without name m in
          let '(dst', removals) := close dst in
          mkClosing (withDsts (Some m') d) [dst'] removals
            (if (length m' =? 0)%nat && dd_hasCallback d
             then [ddeDisconnect] else [])
      end
  end.

(** [dataDestinations.len]. *)
Definition len (d : destinations) : nat :=
  match dd_dsts d with
  | Some m => length m
  | None => O
  end.

(** [pause], [resume] and [setPaused]. *)
Definition setPaused (p : bool) (d : destinations) : destinations :=
  mkDestinations (dd_id d) (dd_numSent d) (dd_numDropped d) (dd_nodeName d)
    (dd_dsts d) p (dd_hasCallback d).

Definition pause (d : destinations) : destinations := setPaused true d.
Definition resume (d : destinations) : destinations := setPaused false d.



(** The names are the keys of a map. *)
Definition keysUnique (d : destinations) : Prop :=
  match dd_dsts d with
  | Some m => NoDup (map fst m)
  | None => True
  end.

End Lifecycle.

(** ** Lines and columns of positions in a text *)

Module Positions.
Import Parser.

Record textPosition := mkTextPosition {
  line : Z;
  symbol : Z
}.

(** A rune is its code point; the buffer is given as [[]rune(buffer)]. *)
Abbreviation rune := Z (only parsing).

Definition newline : rune := 10.

(** One step of the scan: a line feed starts a new line, any other
    character is one more symbol on the line. *)
Definition advance (at_ : textPosition) (c : rune) : textPosition :=
  if c =? newline then mkTextPosition (line at_ + 1) 0
  else mkTextPosition (line at_) (symbol at_ + 1).

(** The inner loop: the following positions equal to [i] are passed
    over. *)
Fixpoint skipEqual (i : Z) (pending : list Z) : list Z :=
  match pending with
  | p :: later => if i =? p then skipEqual i later else pending
  | [] => []
  end.

(** The [search] loop of [translatePositions]: [i] is the index of the
    first of [runes], [pending] the sorted positions from index [j] on, and
    [at_] the line and symbol counted so far.  Reading [positions[j]] with
    no position at all is an index out of range. *)
Fixpoint search (runes : list rune) (i : Z) (pending : list Z)
  (at_ : textPosition) (translations : gmap Z textPosition)
  : go string (gmap Z textPosition) :=
  match runes with
  | [] => Ret translations
  | c :: rest =>
      let here := advance at_ c in
      match pending with
      | [] => Panic "index out of range"%string
      | p :: later =>
          if i =? p then
            let translations' := <[p := here]> translations in
            match skipEqual i later with
            | [] => Ret translations'
            | pending' => search rest (i + 1) pending' here translations'
            end
          else search rest (i + 1) pending here translations
      end
  end.

(** [translatePositions]; [sort.Ints] is a sort by [<=]. *)
Definition translatePositions (buffer : list rune) (positions : list Z)
  : go string (gmap Z textPosition) :=
  search buffer 0 (merge_sort Z.le positions) (mkTextPosition 1 0) ∅.

(** The line and the symbol of the character at index [p]: one more than
    the line feeds up to and including it, and the characters since the
    last of them. *)
Definition lineFeeds (l : list rune) : Z :=
  Z.of_nat (length (List.filter (fun c => c =? newline) l)).

Fixpoint sinceLineFeed (reversed : list rune) : Z :=
  match reversed with
  | [] => 0
  | c :: before => if c =? newline then 0 else sinceLineFeed before + 1
  end.

Definition positionAfter (read : list rune) : textPosition :=
  mkTextPosition (1 + lineFeeds read) (sinceLineFeed (rev read)).

Definition positionOf (buffer : list rune) (p : Z) : textPosition :=
  positionAfter (take (Z.to_nat p + 1) buffer).

End Positions.

(** * Properties *)

(** ** Operator precedence, foldability and renaming *)

Module AstTheory.
Import Ast.

(** Induction over expressions that reaches through the slices. *)
Section ExpressionInduction.

Variable P : Expression -> Prop.

Hypothesis HAlias : forall x a, P x -> P (AliasAST x a).
Hypothesis HBinary : forall op l r, P l -> P r -> P (BinaryOpAST op l r).
Hypothesis HUnary : forall op x, P x -> P (UnaryOpAST op x).
Hypothesis HCast : forall x t, P x -> P (TypeCastAST x t).
Hypothesis HFuncApp : forall f xs ord,
  Forall P xs -> Forall (fun p => P (fst p)) ord -> P (FuncAppAST f xs ord).
Hypothesis HSorted : forall x asc, P x -> P (SortedExpressionAST x asc).
Hypothesis HArray : forall xs, Forall P xs -> P (ArrayAST xs).
Hypothesis HMap : forall es, Forall (fun p => P (snd p)) es -> P (MapAST es).
Hypothesis HWildcard : forall rel, P (Wildcard rel).
Hypothesis HRowValue : forall rel col, P (RowValue rel col).
Hypothesis HCondition : forall cs el,
  Forall (fun p => P (fst p) /\ P (snd p)) cs ->
  match el with Some x => P x | None => True end ->
  P (ConditionCaseAST cs el).
Hypothesis HExprCase : forall x cs el,
  P x -> Forall (fun p => P (fst p) /\ P (snd p)) cs ->
  match el with Some y => P y | None => True end ->
  P (ExpressionCaseAST x cs el).
Hypothesis HRowMeta : forall rel m, P (RowMeta rel m).
Hypothesis HNumeric : forall v, P (NumericLiteral v).
Hypothesis HFloat : forall v, P (FloatLiteral v).
Hypothesis HNull : P NullLiteral.
Hypothesis HMissing : P Missing.
Hypothesis HBool : forall v, P (BoolLiteral v).
Hypothesis HString : forall v, P (StringLiteral v).

Definition all_of {A : Type} (Q : A -> Prop) (f : forall a, Q a)
  : forall l : list A, Forall Q l :=
  fix go l :=
    match l with
    | [] => @List.Forall_nil A Q
    | a :: l' => @List.Forall_cons A Q a l' (f a) (go l')
    end.

Definition else_of (f : forall e, P e) (el : option Expression)
  : match el with Some x => P x | None => True end :=
  match el with
  | Some y => f y
  | None => I
  end.

Fixpoint Expression_nested_ind (e : Expression) : P e :=
  match e with
  | AliasAST x a => HAlias x a (Expression_nested_ind x)
  | BinaryOpAST op l r =>
      HBinary op l r (Expression_nested_ind l) (Expression_nested_ind r)
  | UnaryOpAST op x => HUnary op x (Expression_nested_ind x)
  | TypeCastAST x t => HCast x t (Expression_nested_ind x)
  | FuncAppAST f xs ord =>
      HFuncApp f xs ord (all_of P Expression_nested_ind xs)
        (all_of (fun p => P (fst p))
           (fun p => Expression_nested_ind (fst p)) ord)
  | SortedExpressionAST x asc => HSorted x asc (Expression_nested_ind x)
  | ArrayAST xs => HArray xs (all_of P Expression_nested_ind xs)
  | MapAST es =>
      HMap es (all_of (fun p => P (snd p))
                 (fun p => Expression_nested_ind (snd p)) es)
  | Wildcard rel => HWildcard rel
  | RowValue rel col => HRowValue rel col
  | ConditionCaseAST cs el =>
      HCondition cs el
        (all_of (fun p => P (fst p) /\ P (snd p))
           (fun p => conj (Expression_nested_ind (fst p))
                       (Expression_nested_ind (snd p))) cs)
        (else_of Expression_nested_ind el)
  | ExpressionCaseAST x cs el =>
      HExprCase x cs el (Expression_nested_ind x)
        (all_of (fun p => P (fst p) /\ P (snd p))
           (fun p => conj (Expression_nested_ind (fst p))
                       (Expression_nested_ind (snd p))) cs)
        (else_of Expression_nested_ind el)
  | RowMeta rel m => HRowMeta rel m
  | NumericLiteral v => HNumeric v
  | FloatLiteral v => HFloat v
  | NullLiteral => HNull
  | Missing => HMissing
  | BoolLiteral v => HBool v
  | StringLiteral v => HString v
  end.

End ExpressionInduction.

(** *** Precedence *)

Lemma and_is_not_above_or : hasHigherPrecedenceThan And Or = false.
Proof. reflexivity. Qed.

(** C3, counterexample: AND comes after OR in the list, yet the comparison
    does not rank it higher, because both lie in the range from OR to NOT
    that [hasSamePrecedenceAs] treats as one level. *)
Lemma precedence_not_strict : ~ strictly_increasing_precedence.
Proof.
  intros H.
  specialize (H 0%nat 1%nat Or And).
  rewrite and_is_not_above_or in H.
  discriminate H; [lia | reflexivity | reflexivity].
Qed.

Ltac cases_of_lookup H i :=
  destruct i as [|i]; simpl in H;
  [ | first [discriminate H | cases_of_lookup H i] ].

(** C3, amended: for two operators of the list, the later one has higher
    precedence than the earlier one exactly when the two do not lie in the
    same group among OR AND NOT, the four order comparisons, IS and IS
    NOT, plus and minus, and the three multiplicative operators; inside a
    group neither ranks higher, and the earlier one never ranks higher than
    the later one. *)
Theorem precedence_increases_between_groups (i j : nat) (a b : Operator) :
  (i < j)%nat ->
  precedenceOrder !! i = Some a ->
  precedenceOrder !! j = Some b ->
  hasHigherPrecedenceThan b a = negb (sameGroup a b) /\
  hasHigherPrecedenceThan a b = false /\
  hasSamePrecedenceAs b a = sameGroup a b.
Proof.
  intros Hij Hi Hj.
  cases_of_lookup Hi i; cases_of_lookup Hj j;
    try (exfalso; lia);
    injection Hi as <-; injection Hj as <-; vm_compute; auto.
Qed.

Lemma precedence_increases_between_groups_witness :
  hasHigherPrecedenceThan Plus And = negb (sameGroup And Plus) /\
  hasHigherPrecedenceThan And Plus = false /\
  hasSamePrecedenceAs Plus And = sameGroup And Plus.
Proof.
  apply (precedence_increases_between_groups 1 12 And Plus);
    [lia | reflexivity | reflexivity].
Defined.

(** *** Foldability *)

Lemma forallb_Forall_true {A : Type} (f : A -> bool) (l : list A) :
  forallb f l = true <-> Forall (fun x => f x = true) l.
Proof.
  induction l as [|x l IH]; simpl.
  - split; [constructor | reflexivity].
  - rewrite andb_true_iff, IH. split.
    + intros [Hx Hl]. constructor; assumption.
    + intros H. inversion H; subst. split; assumption.
Qed.


(** *** Renaming *)

Lemma map_fixes {A : Type} (f : A -> A) (l : list A) :
  Forall (fun x => f x = x) l -> map f l = l.
Proof.
  induction 1 as [|x l Hx _ IH]; simpl; [reflexivity|].
  rewrite Hx, IH. reflexivity.
Qed.

Lemma existsb_false_Forall {A : Type} (f : A -> bool) (l : list A) :
  existsb f l = false <-> Forall (fun x => f x = false) l.
Proof.
  induction l as [|x l IH]; simpl.
  - split; [constructor | reflexivity].
  - rewrite orb_false_iff, IH. split.
    + intros [Hx Hl]. constructor; assumption.
    + intros H. inversion H; subst. split; assumption.
Qed.

(** C2, counterexample: renaming [a] to [b] leaves a reference to [b]
    alone, and renaming [b] back to [a] then captures it. *)
Lemma rename_round_trip_captures : ~ rename_round_trip_is_identity.
Proof.
  intros H.
  specialize (H (RowValue "b" "x") "a"%string "b"%string).
  discriminate H.
Qed.

Ltac string_cases :=
  repeat match goal with
  | |- context [String.eqb ?a ?b] => destruct (String.eqb_spec a b); subst
  | H : context [String.eqb ?a ?b] |- _ =>
      destruct (String.eqb_spec a b); subst
  end.

Lemma rename_to_itself (e : Expression) (x : string) :
  RenameReferencedRelation e x x = e.
Proof.
  induction e using Expression_nested_ind; simpl;
    try (string_cases; congruence).
  - f_equal.
    + apply map_fixes. assumption.
    + apply map_fixes. eapply Forall_impl; [eassumption|].
      intros [y k] Hy. simpl in *. congruence.
  - f_equal. apply map_fixes. assumption.
  - f_equal. apply map_fixes. eapply Forall_impl; [eassumption|].
    intros [k y] Hy. simpl in *. congruence.
  - f_equal.
    + apply map_fixes. eapply Forall_impl; [eassumption|].
      intros [y z] [Hy Hz]. simpl in *. congruence.
    + destruct el; congruence.
  - f_equal.
    + assumption.
    + apply map_fixes. eapply Forall_impl; [eassumption|].
      intros [y z] [Hy Hz]. simpl in *. congruence.
    + destruct el; congruence.
Qed.

Lemma Forall_modus {A : Type} (P Q : A -> Prop) (l : list A) :
  Forall (fun x => P x -> Q x) l -> Forall P l -> Forall Q l.
Proof.
  induction 1 as [|x l Hx _ IH]; intros H; [constructor|].
  inversion H; subst. constructor; auto.
Qed.

Lemma rename_and_back (e : Expression) (from to : string) :
  mentionsRelation to e = false ->
  RenameReferencedRelation (RenameReferencedRelation e from to) to from = e.
Proof.
  induction e using Expression_nested_ind; simpl; intros Hm;
    try (string_cases; simpl; string_cases; congruence).
  - f_equal; auto.
  - apply orb_false_iff in Hm as [Hl Hr]. f_equal; auto.
  - f_equal; auto.
  - f_equal; auto.
  - apply orb_false_iff in Hm as [Hxs Hord].
    apply existsb_false_Forall in Hxs, Hord.
    rewrite !map_map. f_equal.
    + apply map_fixes. exact (Forall_modus _ _ _ H Hxs).
    + apply map_fixes.
      eapply Forall_impl; [eapply Forall_and; split; [exact H0 | exact Hord]|].
      intros [y k] [Hy Hk]. simpl in *. rewrite Hy by assumption. reflexivity.
  - f_equal; auto.
  - apply existsb_false_Forall in Hm. rewrite map_map. f_equal.
    apply map_fixes. exact (Forall_modus _ _ _ H Hm).
  - apply existsb_false_Forall in Hm. rewrite map_map. f_equal.
    apply map_fixes.
    eapply Forall_impl; [eapply Forall_and; split; [exact H | exact Hm]|].
    intros [k y] [Hy Hk]. simpl in *. rewrite Hy by assumption. reflexivity.
  - apply orb_false_iff in Hm as [Hcs Hel].
    apply existsb_false_Forall in Hcs. rewrite map_map. f_equal.
    + apply map_fixes.
      eapply Forall_impl; [eapply Forall_and; split; [exact H | exact Hcs]|].
      intros [y z] [[Hy Hz] Hyz]. simpl in *.
      apply orb_false_iff in Hyz as [? ?].
      rewrite Hy, Hz by assumption. reflexivity.
    + destruct el; [f_equal; auto | reflexivity].
  - apply orb_false_iff in Hm as [Hm Hel].
    apply orb_false_iff in Hm as [Hx Hcs].
    apply existsb_false_Forall in Hcs. rewrite map_map. f_equal.
    + auto.
    + apply map_fixes.
      eapply Forall_impl; [eapply Forall_and; split; [exact H | exact Hcs]|].
      intros [y z] [[Hy Hz] Hyz]. simpl in *.
      apply orb_false_iff in Hyz as [? ?].
      rewrite Hy, Hz by assumption. reflexivity.
    + destruct el; [f_equal; auto | reflexivity].
Qed.

(** C2, amended: renaming [from] to [to] and then [to] back to [from]
    yields the expression again whenever the two names are equal or no row
    value, row meta or wildcard node of the expression names [to]. *)
Theorem rename_round_trip_when_fresh (e : Expression) (from to : string) :
  from = to \/ mentionsRelation to e = false ->
  renameRoundTrip e from to = e.
Proof.
  unfold renameRoundTrip. intros [-> | Hfresh].
  - rewrite !rename_to_itself. reflexivity.
  - apply rename_and_back, Hfresh.
Qed.

Lemma rename_round_trip_when_fresh_witness :
  renameRoundTrip
    (BinaryOpAST Plus (RowValue "a" "x")
       (FuncAppAST "f" [RowMeta "a" TimestampMeta; Wildcard "c"] []))
    "a" "b"
  = BinaryOpAST Plus (RowValue "a" "x")
      (FuncAppAST "f" [RowMeta "a" TimestampMeta; Wildcard "c"] []).
Proof.
  apply rename_round_trip_when_fresh. right. reflexivity.
Defined.

Lemma map_fixed_Forall {A : Type} (f : A -> A) (l : list A) :
  map f l = l -> Forall (fun x => f x = x) l.
Proof.
  induction l as [|x l IH]; simpl; intros H; [constructor|].
  injection H as Hx Hl. constructor; auto.
Qed.

(** The condition of the amended round trip is also necessary. *)
Lemma rename_round_trip_only_when_fresh (e : Expression) (from to : string) :
  renameRoundTrip e from to = e ->
  from = to \/ mentionsRelation to e = false.
Proof.
  destruct (String.eqb_spec from to) as [Heq|Hne]; [left; assumption|].
  intros H. right. revert H. unfold renameRoundTrip.
  induction e using Expression_nested_ind; simpl; intros Hrt;
    try reflexivity;
    try (string_cases; simpl in Hrt; string_cases;
         solve [congruence | apply String.eqb_neq; congruence]).
  - injection Hrt as Hx. auto.
  - injection Hrt as Hl Hr. apply orb_false_iff. auto.
  - injection Hrt as Hx. auto.
  - injection Hrt as Hx. auto.
  - injection Hrt as Hxs Hord. rewrite map_map in Hxs, Hord.
    apply map_fixed_Forall in Hxs, Hord.
    apply orb_false_iff. split; apply existsb_false_Forall.
    + refine (Forall_modus _ _ _ H Hxs).
    + eapply Forall_impl;
        [eapply Forall_and; split; [exact H0 | exact Hord]|].
      intros [y k] [Hy Hk]. simpl in *. apply Hy. congruence.
  - injection Hrt as Hx. auto.
  - injection Hrt as Hxs. rewrite map_map in Hxs.
    apply map_fixed_Forall in Hxs. apply existsb_false_Forall.
    refine (Forall_modus _ _ _ H Hxs).
  - injection Hrt as Hes. rewrite map_map in Hes.
    apply map_fixed_Forall in Hes. apply existsb_false_Forall.
    eapply Forall_impl; [eapply Forall_and; split; [exact H | exact Hes]|].
    intros [k y] [Hy Hk]. simpl in *. apply Hy. congruence.
  - injection Hrt as Hcs Hel. rewrite map_map in Hcs.
    apply map_fixed_Forall in Hcs. apply orb_false_iff. split.
    + apply existsb_false_Forall.
      eapply Forall_impl; [eapply Forall_and; split; [exact H | exact Hcs]|].
      intros [y z] [[Hy Hz] Hyz]. simpl in *. injection Hyz as ? ?.
      apply orb_false_iff. auto.
    + destruct el; [injection Hel as Hel; auto | reflexivity].
  - injection Hrt as Hx Hcs Hel. rewrite map_map in Hcs.
    apply map_fixed_Forall in Hcs.
    apply orb_false_iff. split; [apply orb_false_iff; split|].
    + auto.
    + apply existsb_false_Forall.
      eapply Forall_impl; [eapply Forall_and; split; [exact H | exact Hcs]|].
      intros [y z] [[Hy Hz] Hyz]. simpl in *. injection Hyz as ? ?.
      apply orb_false_iff. auto.
    + destruct el; [injection Hel as Hel; auto | reflexivity].
Qed.

End AstTheory.

(** ** Writing to a pipe and broadcasting to several *)

Module PipeTheory.
Import Pipe.

Local Open Scope nat_scope.

Lemma ShallowCopy_same (t : Tuple) : ShallowCopy t = t.
Proof. destruct t; reflexivity. Qed.

(** The outgoing tuple of a shared tuple is a copy in a new cell. *)
Lemma outgoing_shared (h : heap) (s : pipeSender) (inp : ptr) (tup : Tuple) :
  IsSet (Flags tup) TFShared = true ->
  outgoing h s inp tup
  = (length h, h ++ [withInputName (inputName s) (ShallowCopy tup)]).
Proof.
  intros Hs. unfold outgoing. rewrite Hs.
  rewrite alter_app_r_alt by lia. rewrite Nat.sub_diag. reflexivity.
Qed.

(** The outgoing tuple of an unshared tuple is the tuple itself. *)
Lemma outgoing_unshared (h : heap) (s : pipeSender) (inp : ptr) (tup : Tuple) :
  IsSet (Flags tup) TFShared = false ->
  outgoing h s inp tup = (inp, alter (withInputName (inputName s)) inp h).
Proof. intros Hs. unfold outgoing. rewrite Hs. reflexivity. Qed.

Lemma sendLoop_heap (fuel : nat) (h : heap) (s : pipeSender) (t : ptr)
  (calls : list ptr) :
  w_heap (sendLoop fuel h s t calls) = h.
Proof.
  revert s calls. induction fuel as [|fuel IH]; intros s calls; simpl.
  - reflexivity.
  - destruct (hasRoom s); [reflexivity|].
    destruct (dropMode s); try reflexivity;
      destruct (out s); apply IH.
Qed.

(** The heap [write] leaves on an open sender is the one [outgoing] made. *)
Lemma write_heap (fuel : nat) (h : heap) (s : pipeSender) (inp : ptr)
  (tup : Tuple) :
  closed s = false ->
  h !! inp = Some tup ->
  w_heap (write fuel h s inp) = snd (outgoing h s inp tup).
Proof.
  intros Hopen Hin. unfold write. rewrite Hopen, Hin.
  destruct (outgoing h s inp tup) as [t h'] eqn:Ho. simpl.
  destruct (dropMode s).
  - destruct (hasRoom s); reflexivity.
  - apply sendLoop_heap.
  - apply sendLoop_heap.
Qed.

(** *** Closed senders *)

(** C5: on a closed sender [write] returns the pipe-closed sentinel and
    changes nothing: the heap (so the tuple, its input name and its flags),
    the queue and the count of written tuples are as before, and the
    dropped-tuple callback is not called. *)
Theorem write_on_closed_sender (fuel : nat) (h : heap) (s : pipeSender)
  (inp : ptr) :
  closed s = true ->
  write fuel h s inp = mkWritten h s [] (Returned (Some errPipeClosed)).
Proof. intros Hc. unfold write. rewrite Hc. reflexivity. Qed.

Lemma write_on_closed_sender_witness :
  write 2 [sampleTuple 0] (sampleSender [] 1 DropNone true) 0
  = mkWritten [sampleTuple 0] (sampleSender [] 1 DropNone true) []
      (Returned (Some errPipeClosed)).
Proof. apply write_on_closed_sender. reflexivity. Defined.

(** *** Drop-latest on a full queue *)

(** C6: on an open sender in drop-latest mode whose queue is full, [write]
    returns [nil], leaves the queue and the count as they were, and calls
    the dropped-tuple callback once, with the tuple it was about to send:
    the incoming tuple, or its copy when the incoming tuple is shared. *)
Theorem write_drop_latest_when_full (fuel : nat) (h : heap) (s : pipeSender)
  (inp : ptr) (tup : Tuple) :
  closed s = false ->
  dropMode s = DropLatest ->
  hasRoom s = false ->
  h !! inp = Some tup ->
  let r := write (S fuel) h s inp in
  w_status r = Returned None /\
  w_sender r = s /\
  w_dropped r = [fst (outgoing h s inp tup)] /\
  (IsSet (Flags tup) TFShared = false -> w_dropped r = [inp]).
Proof.
  intros Hopen Hmode Hfull Hin. unfold write.
  rewrite Hopen, Hin.
  destruct (outgoing h s inp tup) as [t h'] eqn:Ho.
  rewrite Hmode. simpl. rewrite Hfull, Hmode. simpl.
  repeat split.
  intros Hs. rewrite outgoing_unshared in Ho by assumption. congruence.
Qed.

Lemma write_drop_latest_when_full_witness :
  let r := write 1 [sampleTuple 0; sampleTuple 0]
             (sampleSender [1] 1 DropLatest false) 0 in
  w_status r = Returned None /\
  w_sender r = sampleSender [1] 1 DropLatest false /\
  w_dropped r
  = [fst (outgoing [sampleTuple 0; sampleTuple 0]
            (sampleSender [1] 1 DropLatest false) 0 (sampleTuple 0))] /\
  (IsSet (Flags (sampleTuple 0)) TFShared = false -> w_dropped r = [0]).
Proof.
  apply (write_drop_latest_when_full 0 [sampleTuple 0; sampleTuple 0]
           (sampleSender [1] 1 DropLatest false) 0 (sampleTuple 0));
    reflexivity.
Defined.

(** The iterations of the send loop. *)
Lemma sendLoop_room (fuel : nat) (h : heap) (s : pipeSender) (t : ptr)
  (calls : list ptr) :
  hasRoom s = true ->
  sendLoop (S fuel) h s t calls
  = mkWritten h (counted (withQueue (out s ++ [t]) s)) calls (Returned None).
Proof. intros Hroom. simpl. rewrite Hroom. reflexivity. Qed.

Lemma sendLoop_latest (fuel : nat) (h : heap) (s : pipeSender) (t : ptr)
  (calls : list ptr) :
  hasRoom s = false ->
  dropMode s = DropLatest ->
  sendLoop (S fuel) h s t calls = mkWritten h s (calls ++ [t]) (Returned None).
Proof. intros Hfull Hmode. simpl. rewrite Hfull, Hmode. reflexivity. Qed.

Lemma sendLoop_oldest (fuel : nat) (h : heap) (s : pipeSender) (t : ptr)
  (calls : list ptr) (oldest : ptr) (rest : list ptr) :
  hasRoom s = false ->
  dropMode s = DropOldest ->
  out s = oldest :: rest ->
  length (out s) = capacity s ->
  sendLoop (S (S fuel)) h s t calls
  = mkWritten h (counted (withQueue (rest ++ [t]) s)) (calls ++ [oldest])
      (Returned None).
Proof.
  intros Hfull Hmode Hq Hlen.
  change (sendLoop (S (S fuel)) h s t calls)
    with (if hasRoom s
          then mkWritten h (counted (withQueue (out s ++ [t]) s)) calls
                 (Returned None)
          else match dropMode s with
               | DropLatest => mkWritten h s (calls ++ [t]) (Returned None)
               | _ => match out s with
                      | dropped :: rest' =>
                          sendLoop (S fuel) h (withQueue rest' s) t
                            (calls ++ [dropped])
                      | [] => sendLoop (S fuel) h s t calls
                      end
               end).
  rewrite Hfull, Hmode, Hq.
  rewrite sendLoop_room; [reflexivity|].
  unfold hasRoom. simpl. apply Nat.ltb_lt. rewrite <- Hlen, Hq. simpl. lia.
Qed.

(** *** What an open sender enqueues *)

(** C1, counterexample: an open sender in drop-latest mode with a full
    queue enqueues nothing. *)
Lemma write_may_enqueue_nothing : ~ write_always_enqueues.
Proof.
  intros H.
  destruct (H 0 [sampleTuple 0; sampleTuple 0]
              (sampleSender [1] 1 DropLatest false) 0 (sampleTuple 0)
              eq_refl eq_refl) as (t & Hq & _).
  vm_compute in Hq. discriminate Hq.
Qed.

(** C1, amended: on an open sender the outgoing tuple is a shallow copy of
    the incoming one, which is left as it was, when the shared flag is set,
    and the incoming tuple itself otherwise; its input name is the
    sender's edge name.  The outgoing tuple is appended to the queue when
    the queue has room, and in drop-oldest mode after the oldest queued
    tuple has been taken out; on a full queue nothing is enqueued in
    drop-latest mode and the write stays blocked in drop-none mode. *)
Theorem write_enqueues_outgoing (fuel : nat) (h : heap) (s : pipeSender)
  (inp : ptr) (tup : Tuple) :
  closed s = false ->
  h !! inp = Some tup ->
  let r := write (S (S fuel)) h s inp in
  exists t : ptr,
    (if IsSet (Flags tup) TFShared
     then h !! t = None /\
          w_heap r !! inp = Some tup /\
          w_heap r !! t = Some (withInputName (inputName s) (ShallowCopy tup))
     else t = inp /\
          w_heap r !! t = Some (withInputName (inputName s) tup)) /\
    (hasRoom s = true ->
       w_status r = Returned None /\
       out (w_sender r) = out s ++ [t] /\
       cnt (w_sender r) = AddInt64 (cnt s) 1 /\
       w_dropped r = []) /\
    (hasRoom s = false -> dropMode s = DropOldest ->
     forall oldest rest,
       out s = oldest :: rest -> length (out s) = capacity s ->
       w_status r = Returned None /\
       out (w_sender r) = rest ++ [t] /\
       cnt (w_sender r) = AddInt64 (cnt s) 1 /\
       w_dropped r = [oldest]) /\
    (hasRoom s = false -> dropMode s = DropLatest ->
       w_status r = Returned None /\ w_sender r = s /\ w_dropped r = [t]) /\
    (hasRoom s = false -> dropMode s = DropNone ->
       w_status r = Blocked /\ w_sender r = s /\ w_dropped r = []).
Proof.
  intros Hopen Hin r. subst r.
  pose proof (write_heap (S (S fuel)) h s inp tup Hopen Hin) as Hheap.
  assert (Hlt : inp < length h) by (eapply lookup_lt_Some; eassumption).
  exists (fst (outgoing h s inp tup)).
  split; [| unfold write; rewrite Hopen, Hin;
            destruct (outgoing h s inp tup) as [t h'] eqn:Ho;
            cbn [fst]; split; [|split; [|split]]].
  - destruct (IsSet (Flags tup) TFShared) eqn:Hs.
    + rewrite outgoing_shared in Hheap |- * by assumption. simpl in *.
      rewrite Hheap. repeat split.
      * apply lookup_ge_None_2. lia.
      * rewrite lookup_app_l by assumption. assumption.
      * rewrite lookup_app_r by lia. rewrite Nat.sub_diag. reflexivity.
    + rewrite outgoing_unshared in Hheap |- * by assumption. simpl in *.
      rewrite Hheap. split; [reflexivity|].
      rewrite list_lookup_alter_eq, Hin. reflexivity.
  - intros Hroom. destruct (dropMode s).
    + rewrite Hroom. repeat split.
    + rewrite sendLoop_room by assumption. repeat split.
    + rewrite sendLoop_room by assumption. repeat split.
  - intros Hfull Hmode oldest rest Hq Hlen. rewrite Hmode.
    rewrite (sendLoop_oldest fuel h' s t [] oldest rest) by assumption.
    repeat split.
  - intros Hfull Hmode. rewrite Hmode.
    rewrite sendLoop_latest by assumption. repeat split.
  - intros Hfull Hmode. rewrite Hmode, Hfull. repeat split.
Qed.

Lemma write_enqueues_outgoing_witness :
  let r := write 2 [sampleTuple 1] (sampleSender [] 1 DropNone false) 0 in
  exists t : ptr,
    (if IsSet (Flags (sampleTuple 1)) TFShared
     then [sampleTuple 1] !! t = None /\
          w_heap r !! 0 = Some (sampleTuple 1) /\
          w_heap r !! t
          = Some (withInputName "edge" (ShallowCopy (sampleTuple 1)))
     else t = 0 /\
          w_heap r !! t = Some (withInputName "edge" (sampleTuple 1))) /\
    (hasRoom (sampleSender [] 1 DropNone false) = true ->
       w_status r = Returned None /\
       out (w_sender r) = [] ++ [t] /\
       cnt (w_sender r) = AddInt64 5 1 /\
       w_dropped r = []) /\
    (hasRoom (sampleSender [] 1 DropNone false) = false ->
     dropMode (sampleSender [] 1 DropNone false) = DropOldest ->
     forall oldest rest,
       out (sampleSender [] 1 DropNone false) = oldest :: rest ->
       length (out (sampleSender [] 1 DropNone false)) = 1 ->
       w_status r = Returned None /\
       out (w_sender r) = rest ++ [t] /\
       cnt (w_sender r) = AddInt64 5 1 /\
       w_dropped r = [oldest]) /\
    (hasRoom (sampleSender [] 1 DropNone false) = false ->
     dropMode (sampleSender [] 1 DropNone false) = DropLatest ->
       w_status r = Returned None /\
       w_sender r = sampleSender [] 1 DropNone false /\
       w_dropped r = [t]) /\
    (hasRoom (sampleSender [] 1 DropNone false) = false ->
     dropMode (sampleSender [] 1 DropNone false) = DropNone ->
       w_status r = Blocked /\
       w_sender r = sampleSender [] 1 DropNone false /\
       w_dropped r = []).
Proof.
  apply (write_enqueues_outgoing 0 [sampleTuple 1]
           (sampleSender [] 1 DropNone false) 0 (sampleTuple 1));
    reflexivity.
Defined.

(** *** The shared flag during a broadcast *)







(** With the copy as modelled, what a destination with room is sent on a
    broadcast of a shared tuple is a copy that carries the flag too. *)
Lemma write_shared_sends_shared_copy (fuel : nat) (h : heap) (s : pipeSender)
  (t : ptr) (tup : Tuple) :
  closed s = false ->
  h !! t = Some tup ->
  IsSet (Flags tup) TFShared = true ->
  hasRoom s = true ->
  let r := write (S fuel) h s t in
  out (w_sender r) = out s ++ [length h] /\
  sharedAt (w_heap r) (length h) = true.
Proof.
  intros Hopen Ht Hs Hroom r. subst r.
  rewrite (write_heap (S fuel) h s t tup Hopen Ht).
  unfold write. rewrite Hopen, Ht.
  rewrite outgoing_shared by assumption. cbn [snd].
  split.
  - destruct (dropMode s); [rewrite Hroom | rewrite sendLoop_room by assumption
                           | rewrite sendLoop_room by assumption];
      reflexivity.
  - unfold sharedAt. rewrite lookup_app_r by lia.
    rewrite Nat.sub_diag. simpl. assumption.
Qed.

End PipeTheory.

(** ** Panics inside the parser *)

Module ParserTheory.
Import Parser.

Section Backend.

Variable statement : Type.
Variable raised : Type.
Variable describe : panicValue raised -> string.
Variable Parse : string -> go (panicValue raised) (option string).
Variable Execute :
  string -> go (panicValue raised) (list (Z * Z * statement)).

(** C9: for every input and every behaviour of the backend, [ParseStmt]
    returns; when its body panics, the panic is turned into the returned
    error, which is then not [nil], next to a [nil] result and an empty
    rest. *)
Theorem ParseStmt_never_panics (s : string) :
  exists res : results statement,
    ParseStmt statement raised describe Parse Execute s = Ret res /\
    forall v : panicValue raised,
      ParseStmt_body statement raised Parse Execute s = Panic v ->
      res = (None, EmptyString,
             Some (String.append "Error in BQL parser: " (describe v))) /\
      snd res <> None.
Proof.
  unfold ParseStmt, recovering.
  destruct (ParseStmt_body statement raised Parse Execute s) as [res|v].
  - exists res. split; [reflexivity|]. intros v Hv. discriminate Hv.
  - eexists. split; [reflexivity|]. intros v' Hv.
    injection Hv as <-. split; [reflexivity | discriminate].
Qed.

(** When neither the backend nor the slice expression panics, the outcome
    of the body is returned as it is. *)
Lemma ParseStmt_returns_body (s : string) (res : results statement) :
  ParseStmt_body statement raised Parse Execute s = Ret res ->
  ParseStmt statement raised describe Parse Execute s = Ret res.
Proof. intros H. unfold ParseStmt, recovering. rewrite H. reflexivity. Qed.

End Backend.

(** A backend that leaves an end position beyond the input makes the slice
    expression panic; [ParseStmt] returns the error. *)
Example ParseStmt_recovers_slice_panic :
  ParseStmt unit unit (fun _ => "slice bounds out of range"%string)
    (fun _ => Ret None) (fun _ => Ret [(0, 9, tt)]) "SELECT"
  = Ret (None, EmptyString,
         Some "Error in BQL parser: slice bounds out of range"%string).
Proof. reflexivity. Qed.

Example ParseStmt_returns_rest :
  ParseStmt unit unit (fun _ => EmptyString)
    (fun _ => Ret None) (fun _ => Ret [(0, 3, tt)]) "abc ; def"
  = Ret (Some tt, "def"%string, None).
Proof. reflexivity. Qed.

End ParserTheory.

(** ** Registering and calling generic UDFs *)

Module UdfTheory.
Import Udf.

Lemma find_finds {A : Type} (f : A -> bool) (l : list A) (x : A) :
  In x l -> f x = true -> exists y, List.find f l = Some y.
Proof.
  induction l as [|a l IH]; simpl; intros Hin Hx; [contradiction|].
  destruct (f a) eqn:Ha; [eauto|].
  destruct Hin as [->|Hin]; [congruence | auto].
Qed.

Section Bridge.

Variable converter : Type.
Variable checkGenericFuncReturnTypes : rtype -> error + bool.
Variable createGenericConverters : rtype -> Z -> error + list converter.

Local Abbreviation convert :=
  (convertGenericAggregate converter checkGenericFuncReturnTypes
     createGenericConverters).

(** C8: registering an aggregate fails with an error, and yields no UDF,
    when no entry of the mask is true, when the function has no argument
    besides the context, and when some argument marked in the mask is not
    of slice kind. *)
Theorem aggregate_registration_rejects (t : rtype) (aggParams : list bool) :
  hasTrue aggParams = false \/
  argumentCount t = 0 \/
  (exists (i : nat) (a : rtype),
     aggParams !! i = Some true /\
     Ins t !! (if genericFuncHasContext t then S i else i) = Some a /\
     KindOf a <> Slice) ->
  exists e : error,
    ConvertGenericAggregate converter checkGenericFuncReturnTypes
      createGenericConverters t aggParams = inl e.
Proof.
  intros H. unfold ConvertGenericAggregate, convertGenericAggregate.
  destruct (isFunc (KindOf t)); simpl; [|eauto].
  fold (argumentCount t).
  destruct (argumentCount t =? 0) eqn:Hzero; [eauto|].
  destruct (hasTrue aggParams) eqn:Htrue; simpl; [|eauto].
  destruct (argumentCount t =? Z.of_nat (length aggParams)) eqn:Hlen;
    simpl; [|eauto].
  apply Z.eqb_eq in Hlen. apply Z.eqb_neq in Hzero.
  destruct H as [H | [H | (i & a & Hi & Ha & Hk)]];
    [discriminate | contradiction |].
  assert (Hfound : exists j,
            firstNonSlice t (genericFuncHasContext t) aggParams
              (Z.to_nat (argumentCount t)) = Some j).
  { unfold firstNonSlice. apply (find_finds _ _ i).
    - apply in_seq. apply lookup_lt_Some in Hi. lia.
    - rewrite Hi. unfold argKind. rewrite Ha.
      destruct (KindOf a); try reflexivity. contradiction. }
  destruct Hfound as [j ->]. eauto.
Qed.

(** C10: a UDF built by the bridge has as arity the number of arguments of
    the function after the context, the variadic one counted once, and it
    accepts [n] arguments exactly when [n] is the arity, or the function is
    variadic and [n] is at least the arity minus one. *)
Theorem Accept_built_function (t : rtype) (aggParams : list bool)
  (isAggregate : bool) (g : genericFunc converter) (n : Z) :
  convert t aggParams isAggregate = inr g ->
  arity converter g = argumentCount t /\
  variadic converter g = IsVariadic t /\
  (Accept converter g n = true <->
   n = arity converter g \/
   (variadic converter g = true /\ arity converter g - 1 <= n)).
Proof.
  intros Hbuilt. split; [| split].
  - unfold convertGenericAggregate in Hbuilt. fold (argumentCount t) in Hbuilt.
    repeat match type of Hbuilt with
           | (if ?c then _ else _) = _ => destruct c; try discriminate Hbuilt
           | match ?c with _ => _ end = _ =>
               destruct c; try discriminate Hbuilt
           end.
    injection Hbuilt as <-. reflexivity.
  - unfold convertGenericAggregate in Hbuilt.
    repeat match type of Hbuilt with
           | (if ?c then _ else _) = _ => destruct c; try discriminate Hbuilt
           | match ?c with _ => _ end = _ =>
               destruct c; try discriminate Hbuilt
           end.
    injection Hbuilt as <-. reflexivity.
  - unfold Accept.
    destruct (n <? arity converter g) eqn:Hlt.
    + apply Z.ltb_lt in Hlt.
      destruct (variadic converter g); simpl.
      * destruct (n =? arity converter g - 1) eqn:He.
        -- apply Z.eqb_eq in He. split; [intros _; right; split; [reflexivity | lia] | reflexivity].
        -- apply Z.eqb_neq in He. split; [discriminate|].
           intros [Hn | [_ Hn]]; lia.
      * split; [discriminate|]. intros [Hn | [Hv _]]; [lia | discriminate].
    + apply Z.ltb_ge in Hlt.
      destruct (n =? arity converter g) eqn:He; simpl.
      * apply Z.eqb_eq in He. split; [intros _; left; assumption | reflexivity].
      * apply Z.eqb_neq in He.
        destruct (variadic converter g); simpl.
        -- split; [intros _; right; split; [reflexivity | lia] | reflexivity].
        -- split; [discriminate|]. intros [Hn | [Hv _]]; [lia | discriminate].
Qed.

End Bridge.

Lemma aggregate_registration_rejects_witness :
  exists e : error,
    ConvertGenericAggregate unit noCheck noConverters scalarFunc [true]
    = inl e.
Proof.
  apply aggregate_registration_rejects.
  right. right. exists 0%nat, intType.
  split; [reflexivity | split; [reflexivity | discriminate]].
Defined.

(** Registration does succeed on a well-formed aggregate. *)
Example aggregate_registration_accepts :
  ConvertGenericAggregate unit noCheck noConverters sliceFunc [true]
  = inr (mkGenericFunc unit sliceFunc false false false 1 [true] [tt]).
Proof. reflexivity. Qed.

Lemma Accept_built_function_witness :
  arity unit (mkGenericFunc unit variadicFunc true false true 2
                [false; false] [tt; tt]) = argumentCount variadicFunc /\
  variadic unit (mkGenericFunc unit variadicFunc true false true 2
                   [false; false] [tt; tt]) = IsVariadic variadicFunc /\
  (Accept unit (mkGenericFunc unit variadicFunc true false true 2
                  [false; false] [tt; tt]) 1 = true <->
   1 = arity unit (mkGenericFunc unit variadicFunc true false true 2
                     [false; false] [tt; tt]) \/
   (variadic unit (mkGenericFunc unit variadicFunc true false true 2
                     [false; false] [tt; tt]) = true /\
    arity unit (mkGenericFunc unit variadicFunc true false true 2
                  [false; false] [tt; tt]) - 1 <= 1)).
Proof.
  apply (Accept_built_function unit noCheck noConverters variadicFunc
           [false; false] false).
  reflexivity.
Defined.

End UdfTheory.

(** ** Referenced relations, renaming and folding together *)

Module RelationsTheory.
Import Ast Parser Relations AstTheory.

Ltac unbind H :=
  repeat match type of H with
  | bind ?m _ = Ret _ =>
      let E := fresh "E" in
      destruct m eqn:E; simpl in H; [|discriminate H]
  end.

Lemma forallb_map {A B : Type} (g : A -> B) (f : B -> bool) (l : list A) :
  forallb f (map g l) = forallb (fun x => f (g x)) l.
Proof. induction l as [|x l IH]; simpl; [|rewrite IH]; reflexivity. Qed.

Lemma forallb_ext_Forall {A : Type} (f g : A -> bool) (l : list A) :
  Forall (fun x => f x = g x) l -> forallb f l = forallb g l.
Proof.
  induction 1 as [|x l Hx _ IH]; simpl; [|rewrite Hx, IH]; reflexivity.
Qed.

Lemma existsb_map {A B : Type} (g : A -> B) (f : B -> bool) (l : list A) :
  existsb f (map g l) = existsb (fun x => f (g x)) l.
Proof. induction l as [|x l IH]; simpl; [|rewrite IH]; reflexivity. Qed.

Lemma existsb_ext_Forall {A : Type} (f g : A -> bool) (l : list A) :
  Forall (fun x => f x = g x) l -> existsb f l = existsb g l.
Proof.
  induction 1 as [|x l Hx _ IH]; simpl; [|rewrite Hx, IH]; reflexivity.
Qed.

Lemma in_entries_union (r : string) (a : gset string) (m : option (gset string)) :
  r ∈ a ∪ entries m <-> r ∈ a \/ r ∈ entries m.
Proof. set_solver. Qed.

(** What the accumulating loop returns. *)
Lemma addAll_returns {A : Type} (f : A -> go fault (option (gset string)))
  (g : string -> A -> bool) (xs : list A) :
  Forall (fun x => forall o, f x = Ret o ->
                   forall r, r ∈ entries o <-> g r x = true) xs ->
  forall (acc s : gset string),
    addAll f xs acc = Ret s ->
    forall r, r ∈ s <-> r ∈ acc \/ existsb (g r) xs = true.
Proof.
  induction 1 as [|x xs Hx _ IH]; intros acc s Hs r; simpl in *.
  - injection Hs as <-. split; [auto | intros [?|?]; [assumption|discriminate]].
  - destruct (f x) as [o|] eqn:Ef; simpl in Hs; [|discriminate Hs].
    rewrite (IH _ _ Hs r), in_entries_union, (Hx o eq_refl r), orb_true_iff.
    tauto.
Qed.

Lemma refs_of_pair (w t : Expression) (o : option (gset string)) :
  (forall o, ReferencedRelations w = Ret o ->
             forall r, r ∈ entries o <-> refersTo r w = true) ->
  (forall o, ReferencedRelations t = Ret o ->
             forall r, r ∈ entries o <-> refersTo r t = true) ->
  bind (ReferencedRelations w) (fun w' =>
    bind (ReferencedRelations t) (fun t' =>
      Ret (Some (entries w' ∪ entries t')))) = Ret o ->
  forall r, r ∈ entries o <-> refersTo r w || refersTo r t = true.
Proof.
  intros Hw Ht H r. unbind H. injection H as <-. simpl.
  rewrite orb_true_iff, <- (Hw _ eq_refl r), <- (Ht _ eq_refl r). set_solver.
Qed.

(** X1: when [ReferencedRelations] returns, the map holds exactly the
    relations that a row value, a row meta or a named wildcard of the
    expression refers to. *)
Theorem ReferencedRelations_exact (e : Expression) :
  forall o : option (gset string),
    ReferencedRelations e = Ret o ->
    forall r : string, r ∈ entries o <-> refersTo r e = true.
Proof.
  induction e using Expression_nested_ind; intros o Ho r; simpl in Ho |- *;
    try (injection Ho as <-; simpl; split; [set_solver | discriminate]);
    try (apply IHe; assumption).
  - (* BinaryOpAST *)
    unbind Ho. rewrite orb_true_iff.
    destruct a as [s|].
    + unbind Ho. injection Ho as <-. simpl.
      rewrite <- (IHe1 _ eq_refl r), <- (IHe2 _ eq_refl r). simpl. set_solver.
    + rewrite <- (IHe1 _ eq_refl r), <- (IHe2 _ Ho r). simpl. set_solver.
  - (* FuncAppAST *)
    unbind Ho. injection Ho as <-. simpl.
    rewrite (addAll_returns _ (fun r p => refersTo r (fst p)) ord H0 _ _ E0 r).
    rewrite (addAll_returns _ refersTo xs H _ _ E r).
    rewrite orb_true_iff. set_solver.
  - (* ArrayAST *)
    unbind Ho. injection Ho as <-. simpl.
    rewrite (addAll_returns _ refersTo xs H _ _ E r). set_solver.
  - (* MapAST *)
    unbind Ho. injection Ho as <-. simpl.
    rewrite (addAll_returns _ (fun r p => refersTo r (snd p)) es H _ _ E r).
    set_solver.
  - (* Wildcard *)
    destruct (String.eqb_spec rel ""); injection Ho as <-; simpl.
    + split; [set_solver | discriminate].
    + rewrite elem_of_singleton.
      destruct (String.eqb_spec rel r); split; congruence.
  - (* RowValue *)
    injection Ho as <-. simpl. rewrite elem_of_singleton.
    destruct (String.eqb_spec rel r); split; congruence.
  - (* ConditionCaseAST *)
    unbind Ho.
    assert (Hcs : forall r, r ∈ a <->
              existsb (fun p => refersTo r (fst p) || refersTo r (snd p)) cs
              = true).
    { intros r'.
      rewrite (addAll_returns _
                 (fun r p => refersTo r (fst p) || refersTo r (snd p)) cs
                 ltac:(eapply Forall_impl; [exact H|];
                       intros [w t] [Hw Ht] o' Ho'; simpl in *;
                       exact (refs_of_pair w t o' Hw Ht Ho'))
                 _ _ E r').
      set_solver. }
    rewrite orb_true_iff, <- Hcs.
    destruct el as [x|].
    + unbind Ho. injection Ho as <-. simpl.
      rewrite <- (H0 _ eq_refl r). set_solver.
    + injection Ho as <-. simpl. split; [auto | intros [?|?]; [assumption | discriminate]].
  - (* ExpressionCaseAST *)
    unbind Ho.
    destruct (addAll _ cs ∅) as [inner0|] eqn:Ecs; simpl in E0;
      [|discriminate E0].
    assert (Hcs : forall r, r ∈ inner0 <->
              existsb (fun p => refersTo r (fst p) || refersTo r (snd p)) cs
              = true).
    { intros r'.
      rewrite (addAll_returns _
                 (fun r p => refersTo r (fst p) || refersTo r (snd p)) cs
                 ltac:(eapply Forall_impl; [exact H|];
                       intros [w t] [Hw Ht] o' Ho'; simpl in *;
                       exact (refs_of_pair w t o' Hw Ht Ho'))
                 _ _ Ecs r').
      set_solver. }
    assert (Hinner : forall r, r ∈ a0 <->
              existsb (fun p => refersTo r (fst p) || refersTo r (snd p)) cs
              = true
              \/ match el with Some y => refersTo r y | None => false end = true).
    { intros r'. rewrite <- Hcs. destruct el as [y|].
      - unbind E0. injection E0 as <-. rewrite <- (H0 _ eq_refl r'). set_solver.
      - injection E0 as <-. split; [auto | intros [?|?]; [assumption | discriminate]]. }
    rewrite !orb_true_iff, <- (IHe _ eq_refl r).
    destruct a as [s|].
    + injection Ho as <-. simpl. rewrite elem_of_union.
      pose proof (Hinner r). tauto.
    + destruct (decide (a0 = ∅)) as [->|]; [|discriminate Ho].
      injection Ho as <-. simpl.
      pose proof (Hinner r) as Hr. rewrite elem_of_empty in Hr |- *. tauto.
  - (* RowMeta *)
    injection Ho as <-. simpl. rewrite elem_of_singleton.
    destruct (String.eqb_spec rel r); split; congruence.
Qed.

Lemma ReferencedRelations_exact_witness :
  "b"%string
    ∈ entries (Some ({[ "a"%string ]} ∪ entries (Some {[ "b"%string ]})))
  <-> refersTo "b" (BinaryOpAST Plus (RowValue "a" "x") (Wildcard "b")) = true.
Proof.
  apply (ReferencedRelations_exact
           (BinaryOpAST Plus (RowValue "a" "x") (Wildcard "b"))).
  reflexivity.
Defined.

(** X2: on a CASE expression with an operand, [ReferencedRelations] raises
    the nil-map run-time error whenever the operand refers to no relation
    while a branch does: the map of the operand is [nil] and the names of
    the branches are assigned into it. *)
Theorem ReferencedRelations_case_operand_panics (x : Expression)
  (cs : list (Expression * Expression)) (el : option Expression)
  (s : gset string) :
  ReferencedRelations x = Ret None ->
  ReferencedRelations (ConditionCaseAST cs el) = Ret (Some s) ->
  s <> ∅ ->
  ReferencedRelations (ExpressionCaseAST x cs el) = Panic nilMapAssignment.
Proof.
  intros Hx Hc Hs. simpl in Hc |- *. rewrite Hx. simpl.
  unbind Hc. destruct el as [y|].
  - unbind Hc. injection Hc as <-. simpl.
    destruct (decide (a ∪ entries a0 = ∅)); [contradiction | reflexivity].
  - injection Hc as <-. simpl.
    destruct (decide (a = ∅)); [contradiction | reflexivity].
Qed.

Lemma ReferencedRelations_case_operand_panics_witness :
  ReferencedRelations
    (ExpressionCaseAST (NumericLiteral 1)
       [(RowValue "a" "x", NumericLiteral 2)] None)
  = Panic nilMapAssignment.
Proof.
  apply (ReferencedRelations_case_operand_panics _ _ _ ({[ "a"%string ]} ∪ ∅ ∪ ∅)).
  - reflexivity.
  - vm_compute. reflexivity.
  - set_solver.
Defined.

Lemma addAll_total {A : Type} (f : A -> go fault (option (gset string)))
  (xs : list A) :
  Forall (fun x => exists o, f x = Ret o) xs ->
  forall acc : gset string, exists s, addAll f xs acc = Ret s.
Proof.
  induction 1 as [|x xs [o Hx] _ IH]; intros acc; simpl.
  - eauto.
  - rewrite Hx. simpl. apply IH.
Qed.

(** X3: the nil-map error is the only way [ReferencedRelations] fails, and it
    needs a CASE expression with an operand: on an expression without one
    the call returns. *)
Theorem ReferencedRelations_returns_without_case_operand (e : Expression) :
  hasCaseOperand e = false ->
  exists o : option (gset string), ReferencedRelations e = Ret o.
Proof.
  induction e using Expression_nested_ind; simpl; intros Hc;
    try (eexists; reflexivity); try (apply IHe; assumption);
    try discriminate Hc.
  - apply orb_false_iff in Hc as [Hl Hr].
    destruct (IHe1 Hl) as [ol ->], (IHe2 Hr) as [or' Hr']. simpl.
    destruct ol; [rewrite Hr'; simpl|]; eauto.
  - apply orb_false_iff in Hc as [Hxs Hord].
    apply existsb_false_Forall in Hxs, Hord.
    destruct (addAll_total ReferencedRelations xs
                (Forall_modus _ _ _ H Hxs) ∅) as [s ->]. simpl.
    destruct (addAll_total (fun p => ReferencedRelations (fst p)) ord
                (Forall_modus _ _ _ H0 Hord) s) as [s' ->]. simpl. eauto.
  - apply existsb_false_Forall in Hc.
    destruct (addAll_total ReferencedRelations xs
                (Forall_modus _ _ _ H Hc) ∅) as [s ->]. simpl. eauto.
  - apply existsb_false_Forall in Hc.
    destruct (addAll_total (fun p => ReferencedRelations (snd p)) es
                (Forall_modus _ _ _ H Hc) ∅) as [s ->]. simpl. eauto.
  - destruct (String.eqb rel ""); eauto.
  - apply orb_false_iff in Hc as [Hcs Hel].
    apply existsb_false_Forall in Hcs.
    match goal with
    | |- context [addAll ?f cs ∅] =>
        destruct (addAll_total f cs) with (acc := (∅ : gset string))
          as [s ->]
    end.
    + eapply Forall_impl;
        [eapply Forall_and; split; [exact H | exact Hcs]|].
      intros [w t] [[Hw Ht] Hwt]. simpl in *.
      apply orb_false_iff in Hwt as [? ?].
      destruct (Hw ltac:(assumption)) as [? ->].
      destruct (Ht ltac:(assumption)) as [? ->]. simpl. eauto.
    + simpl. destruct el as [x|]; [|eauto].
      destruct (H0 Hel) as [? ->]. simpl. eauto.
Qed.

Lemma ReferencedRelations_returns_without_case_operand_witness :
  exists o : option (gset string),
    ReferencedRelations
      (ConditionCaseAST [(RowValue "a" "x", NumericLiteral 2)]
         (Some (Wildcard ""))) = Ret o.
Proof.
  apply ReferencedRelations_returns_without_case_operand. reflexivity.
Defined.

Lemma addAll_nothing {A : Type} (f : A -> go fault (option (gset string)))
  (xs : list A) :
  Forall (fun x => exists o, f x = Ret o /\ entries o = ∅) xs ->
  forall acc : gset string, addAll f xs acc = Ret acc.
Proof.
  induction 1 as [|x xs (o & Hx & Ho) _ IH]; intros acc; simpl.
  - reflexivity.
  - rewrite Hx. simpl. rewrite Ho, union_empty_r_L. apply IH.
Qed.

(** X4: a foldable expression refers to no relation: [ReferencedRelations]
    returns on it, with a [nil] or empty map. *)
Theorem Foldable_refers_to_nothing (e : Expression) :
  Foldable e = true ->
  exists o : option (gset string),
    ReferencedRelations e = Ret o /\ entries o = ∅.
Proof.
  induction e using Expression_nested_ind; simpl; intros Hf;
    try (eexists; split; reflexivity); try (apply IHe; assumption);
    try discriminate Hf.
  - apply andb_true_iff in Hf as [Hl Hr].
    destruct (IHe1 Hl) as (ol & -> & Hol), (IHe2 Hr) as (or' & Hr' & Hor).
    simpl. destruct ol as [s|].
    + rewrite Hr'. simpl. eexists. split; [reflexivity|].
      simpl in *. rewrite Hol, Hor. set_solver.
    + eauto.
  - destruct (String.eqb f "now" && (Z.of_nat (length xs) =? 0));
      [discriminate|].
    destruct ord; [|discriminate Hf]. simpl in Hf |- *.
    apply forallb_Forall_true in Hf.
    rewrite (addAll_nothing ReferencedRelations xs
               (Forall_modus _ _ _ H Hf)).
    simpl. eauto.
  - apply forallb_Forall_true in Hf.
    rewrite (addAll_nothing ReferencedRelations xs
               (Forall_modus _ _ _ H Hf)).
    simpl. eauto.
  - apply forallb_Forall_true in Hf.
    rewrite (addAll_nothing (fun p => ReferencedRelations (snd p)) es
               (Forall_modus _ _ _ H Hf)).
    simpl. eauto.
  - destruct (forallb _ cs) eqn:Hcs; [|discriminate Hf]. simpl in Hf.
    apply forallb_Forall_true in Hcs.
    match goal with
    | |- context [addAll ?f cs ∅] => rewrite (addAll_nothing f cs)
    end.
    + simpl. destruct el as [x|]; [|eauto].
      destruct (Foldable x) eqn:Hx; [|discriminate Hf].
      destruct (H0 eq_refl) as (o & -> & Ho). simpl.
      eexists. split; [reflexivity|]. simpl. rewrite Ho. set_solver.
    + eapply Forall_impl;
        [eapply Forall_and; split; [exact H | exact Hcs]|].
      intros [w t] [[Hw Ht] Hwt]. simpl in *.
      apply andb_true_iff in Hwt as [? ?].
      destruct (Hw ltac:(assumption)) as (? & -> & Hew).
      destruct (Ht ltac:(assumption)) as (? & -> & Het). simpl.
      eexists. split; [reflexivity|]. simpl. rewrite Hew, Het. set_solver.
  - apply andb_true_iff in Hf as [Hx Hf].
    destruct (IHe Hx) as (ox & -> & Hox). simpl.
    destruct (forallb _ cs) eqn:Hcs; [|discriminate Hf]. simpl in Hf.
    apply forallb_Forall_true in Hcs.
    match goal with
    | |- context [addAll ?f cs ∅] => rewrite (addAll_nothing f cs)
    end.
    + simpl.
      assert (Hinner : exists inner : gset string,
                match el with
                | Some y =>
                    bind (ReferencedRelations y)
                      (fun m => Ret ((∅ : gset string) ∪ entries m))
                | None => Ret ∅
                end = Ret inner /\ inner = ∅).
      { destruct el as [y|]; [|eauto].
        destruct (Foldable y) eqn:Hy; [|discriminate Hf].
        destruct (H0 eq_refl) as (o & -> & Ho). simpl.
        eexists. split; [reflexivity|]. rewrite Ho. set_solver. }
      destruct Hinner as (inner & -> & ->). simpl.
      destruct ox as [s|].
      * eexists. split; [reflexivity|]. simpl in *. rewrite Hox. set_solver.
      * destruct (decide ((∅ : gset string) = ∅)); [eauto | contradiction].
    + eapply Forall_impl;
        [eapply Forall_and; split; [exact H | exact Hcs]|].
      intros [w t] [[Hw Ht] Hwt]. simpl in *.
      apply andb_true_iff in Hwt as [? ?].
      destruct (Hw ltac:(assumption)) as (? & -> & Hew).
      destruct (Ht ltac:(assumption)) as (? & -> & Het). simpl.
      eexists. split; [reflexivity|]. simpl. rewrite Hew, Het. set_solver.
Qed.

Lemma Foldable_refers_to_nothing_witness :
  exists o : option (gset string),
    ReferencedRelations
      (ExpressionCaseAST (NumericLiteral 1)
         [(NumericLiteral 1, StringLiteral "one")] (Some NullLiteral))
    = Ret o /\ entries o = ∅.
Proof. apply Foldable_refers_to_nothing. reflexivity. Defined.

(** *** Renaming and the other two interrogations *)

(** X5: renaming a relation does not change whether an expression is
    foldable. *)
Theorem RenameReferencedRelation_keeps_Foldable (e : Expression)
  (from to : string) :
  Foldable (RenameReferencedRelation e from to) = Foldable e.
Proof.
  induction e using Expression_nested_ind; simpl;
    try reflexivity; try assumption;
    try (string_cases; reflexivity).
  - rewrite IHe1, IHe2. reflexivity.
  - rewrite !length_map, forallb_map.
    erewrite forallb_ext_Forall; [reflexivity | exact H].
  - rewrite forallb_map. apply forallb_ext_Forall. exact H.
  - rewrite forallb_map. apply forallb_ext_Forall. exact H.
  - rewrite forallb_map.
    erewrite (forallb_ext_Forall _ _ cs).
    + destruct el as [x|]; [rewrite H0|]; reflexivity.
    + eapply Forall_impl; [exact H|]. intros [w t] [Hw Ht]. simpl in *.
      rewrite Hw, Ht. reflexivity.
  - rewrite IHe, forallb_map.
    erewrite (forallb_ext_Forall _ _ cs).
    + destruct el as [x|]; [rewrite H0|]; reflexivity.
    + eapply Forall_impl; [exact H|]. intros [w t] [Hw Ht]. simpl in *.
      rewrite Hw, Ht. reflexivity.
Qed.

(** X6: renaming a relation that no row value, row meta or wildcard of the
    expression names leaves the expression as it is. *)
Theorem RenameReferencedRelation_of_absent (e : Expression)
  (from to : string) :
  mentionsRelation from e = false ->
  RenameReferencedRelation e from to = e.
Proof.
  induction e using Expression_nested_ind; simpl; intros Hm;
    try reflexivity;
    try (string_cases; congruence).
  - f_equal; auto.
  - apply orb_false_iff in Hm as [Hl Hr]. f_equal; auto.
  - f_equal; auto.
  - f_equal; auto.
  - apply orb_false_iff in Hm as [Hxs Hord].
    apply existsb_false_Forall in Hxs, Hord. f_equal.
    + apply map_fixes. exact (Forall_modus _ _ _ H Hxs).
    + apply map_fixes.
      eapply Forall_impl; [eapply Forall_and; split; [exact H0 | exact Hord]|].
      intros [y k] [Hy Hk]. simpl in *. rewrite Hy by assumption. reflexivity.
  - f_equal; auto.
  - apply existsb_false_Forall in Hm. f_equal.
    apply map_fixes. exact (Forall_modus _ _ _ H Hm).
  - apply existsb_false_Forall in Hm. f_equal. apply map_fixes.
    eapply Forall_impl; [eapply Forall_and; split; [exact H | exact Hm]|].
    intros [k y] [Hy Hk]. simpl in *. rewrite Hy by assumption. reflexivity.
  - apply orb_false_iff in Hm as [Hcs Hel].
    apply existsb_false_Forall in Hcs. f_equal.
    + apply map_fixes.
      eapply Forall_impl; [eapply Forall_and; split; [exact H | exact Hcs]|].
      intros [y z] [[Hy Hz] Hyz]. simpl in *.
      apply orb_false_iff in Hyz as [? ?].
      rewrite Hy, Hz by assumption. reflexivity.
    + destruct el; [f_equal; auto | reflexivity].
  - apply orb_false_iff in Hm as [Hm Hel].
    apply orb_false_iff in Hm as [Hx Hcs].
    apply existsb_false_Forall in Hcs. f_equal.
    + auto.
    + apply map_fixes.
      eapply Forall_impl; [eapply Forall_and; split; [exact H | exact Hcs]|].
      intros [y z] [[Hy Hz] Hyz]. simpl in *.
      apply orb_false_iff in Hyz as [? ?].
      rewrite Hy, Hz by assumption. reflexivity.
    + destruct el; [f_equal; auto | reflexivity].
Qed.

Lemma RenameReferencedRelation_of_absent_witness :
  RenameReferencedRelation
    (FuncAppAST "f" [RowValue "a" "x"; Wildcard ""] []) "b" "c"
  = FuncAppAST "f" [RowValue "a" "x"; Wildcard ""] [].
Proof. apply RenameReferencedRelation_of_absent. reflexivity. Defined.

Lemma existsb_all_false {A : Type} (f : A -> bool) (l : list A) :
  Forall (fun x => f x = false) l -> existsb f l = false.
Proof. apply existsb_false_Forall. Qed.

(** X7: after renaming [from] to a different name, no row value, row meta or
    wildcard of the expression names [from] any more. *)
Theorem RenameReferencedRelation_removes_source (e : Expression)
  (from to : string) :
  from <> to ->
  mentionsRelation from (RenameReferencedRelation e from to) = false.
Proof.
  intros Hne.
  induction e using Expression_nested_ind; simpl;
    try reflexivity; try assumption;
    try (string_cases; simpl; apply String.eqb_neq; congruence).
  - rewrite IHe1, IHe2. reflexivity.
  - rewrite !existsb_map. apply orb_false_iff. split.
    + apply existsb_all_false. exact H.
    + apply existsb_all_false. exact H0.
  - rewrite existsb_map. apply existsb_all_false. exact H.
  - rewrite existsb_map. apply existsb_all_false. exact H.
  - rewrite existsb_map. apply orb_false_iff. split.
    + apply existsb_all_false. eapply Forall_impl; [exact H|].
      intros [w t] [Hw Ht]. simpl in *. rewrite Hw, Ht. reflexivity.
    + destruct el; [exact H0 | reflexivity].
  - rewrite existsb_map, IHe. simpl. apply orb_false_iff. split.
    + apply existsb_all_false. eapply Forall_impl; [exact H|].
      intros [w t] [Hw Ht]. simpl in *. rewrite Hw, Ht. reflexivity.
    + destruct el; [exact H0 | reflexivity].
Qed.

Lemma RenameReferencedRelation_removes_source_witness :
  mentionsRelation "a"
    (RenameReferencedRelation
       (BinaryOpAST Equal (RowValue "a" "x") (RowMeta "a" TimestampMeta))
       "a" "b") = false.
Proof. apply RenameReferencedRelation_removes_source. discriminate. Defined.

(** *** The referenced relations of a renamed expression *)

Section Renamed.

Variables from to : string.

Lemma renamed_union (a b : gset string) :
  renamed from to (a ∪ b) = renamed from to a ∪ renamed from to b.
Proof. apply set_map_union_L. Qed.

Lemma renamed_empty : renamed from to ∅ = ∅.
Proof. apply set_map_empty. Qed.

Lemma renamed_entries (o : option (gset string)) :
  entries (renamed from to <$> o) = renamed from to (entries o).
Proof. destruct o; simpl; [reflexivity | symmetry; apply renamed_empty]. Qed.

Lemma renamed_is_empty (s : gset string) :
  renamed from to s = ∅ <-> s = ∅.
Proof.
  split; [|intros ->; apply renamed_empty].
  intros H. apply leibniz_equiv. intros x. split; [|set_solver].
  intros Hx.
  assert (Hin : (if String.eqb x from then to else x) ∈ renamed from to s)
    by (apply elem_of_map; eauto).
  rewrite H in Hin. set_solver.
Qed.

Lemma addAll_renamed {A : Type} (f : A -> go fault (option (gset string)))
  (g : A -> A) (xs : list A) :
  Forall (fun x => f (g x) = lifted from to (f x)) xs ->
  forall acc : gset string,
    addAll f (map g xs) (renamed from to acc)
    = match addAll f xs acc with
      | Ret s => Ret (renamed from to s)
      | Panic v => Panic v
      end.
Proof.
  induction 1 as [|x xs Hx _ IH]; intros acc; simpl.
  - reflexivity.
  - rewrite Hx. destruct (f x) as [o|v]; simpl; [|reflexivity].
    rewrite renamed_entries, <- renamed_union. apply IH.
Qed.

Lemma addAll_renamed_from_empty {A : Type}
  (f : A -> go fault (option (gset string))) (g : A -> A) (xs : list A) :
  Forall (fun x => f (g x) = lifted from to (f x)) xs ->
  addAll f (map g xs) ∅
  = match addAll f xs ∅ with
    | Ret s => Ret (renamed from to s)
    | Panic v => Panic v
    end.
Proof.
  intros H. pose proof (addAll_renamed f g xs H ∅) as E.
  rewrite renamed_empty in E. exact E.
Qed.

(** X8: when neither name is empty, the relations an expression refers to
    after [from] has been renamed to [to] are those it referred to before,
    with [from] replaced by [to]; and the renamed expression makes
    [ReferencedRelations] panic exactly when the original does. *)
Theorem ReferencedRelations_of_renamed (e : Expression) :
  from <> ""%string ->
  to <> ""%string ->
  ReferencedRelations (RenameReferencedRelation e from to)
  = lifted from to (ReferencedRelations e).
Proof.
  intros Hfrom Hto.
  assert (Hpairs : forall cs : list (Expression * Expression),
    Forall (fun p =>
      ReferencedRelations (RenameReferencedRelation (fst p) from to)
      = lifted from to (ReferencedRelations (fst p)) /\
      ReferencedRelations (RenameReferencedRelation (snd p) from to)
      = lifted from to (ReferencedRelations (snd p))) cs ->
    addAll
      (fun p => bind (ReferencedRelations (fst p)) (fun w =>
                  bind (ReferencedRelations (snd p)) (fun t =>
                    Ret (Some (entries w ∪ entries t)))))
      (map (fun p => (RenameReferencedRelation (fst p) from to,
                      RenameReferencedRelation (snd p) from to)) cs)
      ∅
    = match addAll
              (fun p => bind (ReferencedRelations (fst p)) (fun w =>
                          bind (ReferencedRelations (snd p)) (fun t =>
                            Ret (Some (entries w ∪ entries t)))))
              cs ∅ with
      | Ret s => Ret (renamed from to s)
      | Panic v => Panic v
      end).
  { intros cs Hcs. apply addAll_renamed_from_empty.
    eapply Forall_impl; [exact Hcs|]. intros [w t] [Hw Ht]. simpl in *.
    rewrite Hw. destruct (ReferencedRelations w) as [ow|]; simpl; [|reflexivity].
    rewrite Ht. destruct (ReferencedRelations t) as [ot|]; simpl; [|reflexivity].
    rewrite !renamed_entries, <- renamed_union. reflexivity. }
  induction e using Expression_nested_ind; simpl;
    try reflexivity; try assumption.
  - rewrite IHe1. destruct (ReferencedRelations e1) as [[s|]|]; simpl;
      try reflexivity; try assumption.
    rewrite IHe2. destruct (ReferencedRelations e2) as [o|]; simpl;
      [|reflexivity].
    rewrite renamed_entries, <- renamed_union. reflexivity.
  - rewrite (addAll_renamed_from_empty ReferencedRelations
               (fun x => RenameReferencedRelation x from to) xs H).
    destruct (addAll ReferencedRelations xs ∅) as [s|]; simpl; [|reflexivity].
    rewrite (addAll_renamed (fun p => ReferencedRelations (fst p))
               (fun p => (RenameReferencedRelation (fst p) from to, snd p))
               ord H0).
    destruct (addAll _ ord s); reflexivity.
  - rewrite (addAll_renamed_from_empty ReferencedRelations
               (fun x => RenameReferencedRelation x from to) xs H).
    destruct (addAll ReferencedRelations xs ∅); reflexivity.
  - rewrite (addAll_renamed_from_empty (fun p => ReferencedRelations (snd p))
               (fun p => (fst p, RenameReferencedRelation (snd p) from to))
               es H).
    destruct (addAll _ es ∅); reflexivity.
  - destruct (String.eqb_spec rel from) as [->|Hrel]; simpl.
    + destruct (String.eqb_spec to ""); [contradiction|].
      destruct (String.eqb_spec from ""); [contradiction|]. simpl.
      unfold renamed. rewrite set_map_singleton_L, String.eqb_refl.
      reflexivity.
    + destruct (String.eqb_spec rel ""); simpl; [reflexivity|].
      unfold renamed. rewrite set_map_singleton_L.
      destruct (String.eqb_spec rel from); [contradiction | reflexivity].
  - unfold renamed.
    destruct (String.eqb_spec rel from) as [->|Hrel]; simpl;
      rewrite set_map_singleton_L;
      [rewrite String.eqb_refl
      | destruct (String.eqb_spec rel from); [contradiction|]];
      reflexivity.
  - rewrite (Hpairs cs H).
    destruct (addAll _ cs ∅) as [s|]; simpl; [|reflexivity].
    destruct el as [x|]; simpl; [|reflexivity].
    rewrite H0. destruct (ReferencedRelations x) as [o|]; simpl;
      [|reflexivity].
    rewrite renamed_entries, <- renamed_union. reflexivity.
  - rewrite IHe. destruct (ReferencedRelations e) as [ox|]; simpl;
      [|reflexivity].
    rewrite (Hpairs cs H).
    destruct (addAll _ cs ∅) as [s|]; simpl; [|reflexivity].
    assert (Hinner :
      match el with
      | Some y =>
          bind (ReferencedRelations (RenameReferencedRelation y from to))
            (fun m => Ret (renamed from to s ∪ entries m))
      | None => Ret (renamed from to s)
      end
      = match (match el with
               | Some y =>
                   bind (ReferencedRelations y) (fun m => Ret (s ∪ entries m))
               | None => Ret s
               end) with
        | Ret i => Ret (renamed from to i)
        | Panic v => Panic v
        end).
    { destruct el as [y|]; simpl; [|reflexivity].
      rewrite H0. destruct (ReferencedRelations y) as [o|]; simpl;
        [|reflexivity].
      rewrite renamed_entries, <- renamed_union. reflexivity. }
    destruct el as [y|]; simpl in Hinner |- *; [rewrite Hinner|]; clear Hinner.
    + destruct (bind (ReferencedRelations y) _) as [i|]; simpl;
        [|reflexivity].
      destruct ox as [sx|]; simpl.
      * rewrite renamed_union. reflexivity.
      * destruct (decide (i = ∅)) as [->|Hi].
        -- rewrite renamed_empty.
           destruct (decide ((∅ : gset string) = ∅)); [reflexivity | congruence].
        -- destruct (decide (renamed from to i = ∅)) as [Hr|]; [|reflexivity].
           apply (proj1 (renamed_is_empty _)) in Hr. contradiction.
    + destruct ox as [sx|]; simpl.
      * rewrite renamed_union. reflexivity.
      * destruct (decide (s = ∅)) as [->|Hi].
        -- rewrite renamed_empty.
           destruct (decide ((∅ : gset string) = ∅)); [reflexivity | congruence].
        -- destruct (decide (renamed from to s = ∅)) as [Hr|]; [|reflexivity].
           apply (proj1 (renamed_is_empty _)) in Hr. contradiction.
  - unfold renamed.
    destruct (String.eqb_spec rel from) as [->|Hrel]; simpl;
      rewrite set_map_singleton_L;
      [rewrite String.eqb_refl
      | destruct (String.eqb_spec rel from); [contradiction|]];
      reflexivity.
Qed.

End Renamed.

Lemma ReferencedRelations_of_renamed_witness :
  ReferencedRelations
    (RenameReferencedRelation
       (BinaryOpAST Plus (RowValue "a" "x") (Wildcard "c")) "a" "b")
  = lifted "a" "b"
      (ReferencedRelations (BinaryOpAST Plus (RowValue "a" "x") (Wildcard "c"))).
Proof. apply ReferencedRelations_of_renamed; discriminate. Defined.

End RelationsTheory.

(** ** The precedence comparison as an order *)

Module PrecedenceTheory.
Import Ast.

(** The five ranges of [hasSamePrecedenceAs], as a proposition. *)
Lemma hasSamePrecedenceAs_ranges (a b : Operator) :
  hasSamePrecedenceAs a b = true <->
  (1 <= a <= 3 /\ 1 <= b <= 3) \/ (5 <= a <= 8 /\ 5 <= b <= 8) \/
  (11 <= a <= 12 /\ 11 <= b <= 12) \/ (13 <= a <= 14 /\ 13 <= b <= 14) \/
  (15 <= a <= 17 /\ 15 <= b <= 17).
Proof.
  assert (Hor : hasSamePrecedenceAs a b
                = ((1 <=? a) && (a <=? 3) && (1 <=? b) && (b <=? 3)
                   || (5 <=? a) && (a <=? 8) && (5 <=? b) && (b <=? 8)
                   || (11 <=? a) && (a <=? 12) && (11 <=? b) && (b <=? 12)
                   || (13 <=? a) && (a <=? 14) && (13 <=? b) && (b <=? 14)
                   || (15 <=? a) && (a <=? 17) && (15 <=? b) && (b <=? 17))).
  { unfold hasSamePrecedenceAs, Or, Not, Less, GreaterOrEqual, Is, IsNot,
      Plus, Minus, Multiply, Modulo.
    destruct ((1 <=? a) && (a <=? 3) && (1 <=? b) && (b <=? 3));
      [reflexivity|].
    destruct ((5 <=? a) && (a <=? 8) && (5 <=? b) && (b <=? 8));
      [reflexivity|].
    destruct ((11 <=? a) && (a <=? 12) && (11 <=? b) && (b <=? 12));
      [reflexivity|].
    destruct ((13 <=? a) && (a <=? 14) && (13 <=? b) && (b <=? 14));
      [reflexivity|].
    destruct ((15 <=? a) && (a <=? 17) && (15 <=? b) && (b <=? 17));
      reflexivity. }
  rewrite Hor, !orb_true_iff, !andb_true_iff, !Z.leb_le. tauto.
Qed.

Ltac same_group H :=
  destruct H as [H|[H|[H|[H|H]]]];
  [ left | right; left | right; right; left | right; right; right; left
  | right; right; right; right ]; lia.

Lemma hasSamePrecedenceAs_sym (a b : Operator) :
  hasSamePrecedenceAs a b = hasSamePrecedenceAs b a.
Proof.
  destruct (hasSamePrecedenceAs a b) eqn:Hab;
    destruct (hasSamePrecedenceAs b a) eqn:Hba; try reflexivity.
  - apply hasSamePrecedenceAs_ranges in Hab.
    assert (H : hasSamePrecedenceAs b a = true)
      by (apply hasSamePrecedenceAs_ranges; same_group Hab).
    congruence.
  - apply hasSamePrecedenceAs_ranges in Hba.
    assert (H : hasSamePrecedenceAs a b = true)
      by (apply hasSamePrecedenceAs_ranges; same_group Hba).
    congruence.
Qed.

Lemma hasHigherPrecedenceThan_ranges (a b : Operator) :
  hasHigherPrecedenceThan a b = true <->
  hasSamePrecedenceAs a b = false /\ b < a.
Proof.
  unfold hasHigherPrecedenceThan.
  destruct (hasSamePrecedenceAs a b).
  - split; [discriminate | intros [? _]; discriminate].
  - rewrite Z.ltb_lt. tauto.
Qed.

Lemma not_same (a b : Operator) :
  hasSamePrecedenceAs a b = false <->
  ~ ((1 <= a <= 3 /\ 1 <= b <= 3) \/ (5 <= a <= 8 /\ 5 <= b <= 8) \/
     (11 <= a <= 12 /\ 11 <= b <= 12) \/ (13 <= a <= 14 /\ 13 <= b <= 14) \/
     (15 <= a <= 17 /\ 15 <= b <= 17)).
Proof.
  rewrite <- hasSamePrecedenceAs_ranges.
  destruct (hasSamePrecedenceAs a b); split; congruence.
Qed.

(** X9: on all operator values, [hasHigherPrecedenceThan] is a strict
    order: no operator is above itself, two operators are never above each
    other, and being above is transitive. *)
Theorem hasHigherPrecedenceThan_strict_order :
  (forall a : Operator, hasHigherPrecedenceThan a a = false) /\
  (forall a b : Operator,
     hasHigherPrecedenceThan a b = true ->
     hasHigherPrecedenceThan b a = false) /\
  (forall a b c : Operator,
     hasHigherPrecedenceThan a b = true ->
     hasHigherPrecedenceThan b c = true ->
     hasHigherPrecedenceThan a c = true).
Proof.
  split; [|split].
  - intros a. unfold hasHigherPrecedenceThan.
    destruct (hasSamePrecedenceAs a a); [reflexivity | apply Z.ltb_irrefl].
  - intros a b H. apply hasHigherPrecedenceThan_ranges in H as [_ Hlt].
    destruct (hasHigherPrecedenceThan b a) eqn:Hba; [|reflexivity].
    apply hasHigherPrecedenceThan_ranges in Hba as [_ Hlt']. lia.
  - intros a b c Hab Hbc.
    apply hasHigherPrecedenceThan_ranges in Hab as [Sab Lab].
    apply hasHigherPrecedenceThan_ranges in Hbc as [Sbc Lbc].
    apply hasHigherPrecedenceThan_ranges.
    split; [|lia]. apply not_same. apply not_same in Sab.
    intros Hac. apply Sab. same_group Hac.
Qed.

(** X10: [hasSamePrecedenceAs] is symmetric and transitive but not reflexive:
    an operator outside the five groups, such as [=], is not on its own
    level; and of two different operators that are not on one level, one is
    above the other. *)
Theorem hasSamePrecedenceAs_partial_equivalence :
  (forall a b : Operator,
     hasSamePrecedenceAs a b = hasSamePrecedenceAs b a) /\
  (forall a b c : Operator,
     hasSamePrecedenceAs a b = true ->
     hasSamePrecedenceAs b c = true ->
     hasSamePrecedenceAs a c = true) /\
  (forall a : Operator,
     hasSamePrecedenceAs a a = true <->
     1 <= a <= 3 \/ 5 <= a <= 8 \/ 11 <= a <= 17) /\
  (forall a b : Operator,
     a <> b ->
     hasSamePrecedenceAs a b = false ->
     hasHigherPrecedenceThan a b = true \/
     hasHigherPrecedenceThan b a = true).
Proof.
  split; [|split; [|split]].
  - apply hasSamePrecedenceAs_sym.
  - intros a b c Hab Hbc.
    apply hasSamePrecedenceAs_ranges in Hab, Hbc.
    apply hasSamePrecedenceAs_ranges.
    destruct Hab as [H|[H|[H|[H|H]]]];
      [ left | right; left | right; right; left | right; right; right; left
      | right; right; right; right ]; lia.
  - intros a. rewrite hasSamePrecedenceAs_ranges. lia.
  - intros a b Hne Hs.
    rewrite !hasHigherPrecedenceThan_ranges.
    rewrite <- (hasSamePrecedenceAs_sym a b).
    destruct (Z.lt_trichotomy a b) as [Hlt|[Heq|Hgt]];
      [right | contradiction | left]; split; assumption.
Qed.

End PrecedenceTheory.

(** ** Text round trips of row references, wildcards and string literals *)

Module AstTextTheory.
Import Ast Parser AstText.

Lemma len_nonneg (s : string) : 0 <= len s.
Proof. unfold len. lia. Qed.

Lemma len_String (c : ascii) (s : string) : len (String c s) = len s + 1.
Proof. unfold len. simpl. lia. Qed.

Lemma occurs_String (c d : ascii) (s : string) :
  occurs c (String d s) = Ascii.eqb c d || occurs c s.
Proof. reflexivity. Qed.

Lemma occurs_append (c : ascii) (a b : string) :
  occurs c (String.append a b) = occurs c a || occurs c b.
Proof.
  induction a as [|d a IH]; [reflexivity|].
  change (String.append (String d a) b) with (String d (String.append a b)).
  rewrite !occurs_String, IH, orb_assoc. reflexivity.
Qed.

Lemma Index_bounds (s : string) (c : ascii) : -1 <= Index s c < len s.
Proof.
  induction s as [|d s IH]; simpl.
  - unfold len. simpl. lia.
  - rewrite len_String. destruct (Ascii.eqb d c); [pose proof (len_nonneg s); lia|].
    destruct (Z.ltb_spec (Index s c) 0); lia.
Qed.

Lemma Index_absent (s : string) (c : ascii) :
  occurs c s = false -> Index s c = -1.
Proof.
  induction s as [|d s IH]; simpl; [reflexivity|].
  rewrite occurs_String, Ascii.eqb_sym. intros H.
  apply orb_false_iff in H as [-> Hs]. rewrite (IH Hs). reflexivity.
Qed.

Lemma Index_past_prefix (a b : string) (c : ascii) :
  occurs c a = false ->
  Index (String.append a b) c = -1 \/ len a <= Index (String.append a b) c.
Proof.
  induction a as [|d a IH]; intros H.
  - change (String.append EmptyString b) with b.
    pose proof (Index_bounds b c). change (len EmptyString) with 0. lia.
  - rewrite occurs_String, Ascii.eqb_sym in H.
    apply orb_false_iff in H as [Hd Ha]. rewrite len_String.
    change (String.append (String d a) b) with (String d (String.append a b)).
    cbn [Index]. rewrite Hd.
    destruct (IH Ha) as [->| Hle]; [left; reflexivity|].
    destruct (Z.ltb_spec (Index (String.append a b) c) 0);
      pose proof (len_nonneg a); lia.
Qed.

Lemma SplitN_absent (s : string) (c : ascii) :
  occurs c s = false -> SplitN s c = (s, None).
Proof.
  induction s as [|d s IH]; simpl; [reflexivity|].
  rewrite occurs_String, Ascii.eqb_sym. intros H.
  apply orb_false_iff in H as [-> Hs]. rewrite (IH Hs). reflexivity.
Qed.

Lemma SplitN_at_first (a b : string) (c : ascii) :
  occurs c a = false ->
  SplitN (String.append a (String c b)) c = (a, Some b).
Proof.
  induction a as [|d a IH]; simpl; intros H.
  - rewrite Ascii.eqb_refl. reflexivity.
  - rewrite occurs_String, Ascii.eqb_sym in H.
    apply orb_false_iff in H as [-> Ha]. rewrite (IH Ha). reflexivity.
Qed.

(** The parts [SplitN] returns, put together again, and where it cuts. *)
Lemma SplitN_parts (s : string) (c : ascii) :
  match SplitN s c with
  | (first, None) => first = s /\ Index s c = -1
  | (first, Some second) =>
      s = String.append first (String c second) /\
      occurs c first = false /\ Index s c = len first
  end.
Proof.
  induction s as [|d s IH]; simpl; [split; reflexivity|].
  destruct (Ascii.eqb_spec d c) as [->|Hne].
  - repeat split.
  - destruct (SplitN s c) as [first [second|]].
    + destruct IH as (-> & Hocc & Hidx). repeat split.
      * rewrite occurs_String, Hocc.
        destruct (Ascii.eqb_spec c d); [congruence | reflexivity].
      * rewrite Hidx, len_String.
        destruct (Z.ltb_spec (len first) 0);
          pose proof (len_nonneg first); lia.
    + destruct IH as (-> & ->). split; reflexivity.
Qed.

(** *** Row values *)

(** X11: [NewRowValue] reads back what [RowValue.String] prints, provided a
    relation name holds neither a colon nor an opening bracket, and a column
    without relation holds no colon, or an opening bracket before its first
    colon. *)
Theorem NewRowValue_of_String (rel col : string) :
  (rel <> ""%string ->
   occurs colon rel = false /\ occurs bracket rel = false) ->
  (rel = ""%string ->
   occurs colon col = false \/ 0 <= Index col bracket < Index col colon) ->
  NewRowValue (RowValue_String rel col) = RowValue rel col.
Proof.
  intros Hrel Hcol. unfold RowValue_String, NewRowValue.
  destruct (String.eqb_spec rel "") as [->|Hne]; simpl negb; cbv iota.
  - pose proof (SplitN_parts col colon) as Hparts.
    destruct (SplitN col colon) as [first [second|]].
    + destruct Hparts as (Hs & Hocc & Hidx).
      destruct (Hcol eq_refl) as [Hno | Hbr].
      * rewrite (Index_absent _ _ Hno) in Hidx.
        pose proof (len_nonneg first). lia.
      * replace ((0 <=? Index col bracket) && (Index col bracket <? len first))
          with true; [reflexivity|].
        symmetry. apply andb_true_iff.
        rewrite Z.leb_le, Z.ltb_lt. lia.
    + destruct Hparts as (-> & _).
      destruct ((0 <=? Index col bracket) && (Index col bracket <? len col));
        reflexivity.
  - destruct (Hrel Hne) as [Hc Hb].
    rewrite (SplitN_at_first rel col colon Hc).
    replace ((0 <=? Index (String.append rel (String colon col)) bracket)
             && (Index (String.append rel (String colon col)) bracket
                 <? len rel)) with false; [reflexivity|].
    symmetry. apply andb_false_iff.
    rewrite Z.leb_gt, Z.ltb_ge.
    destruct (Index_past_prefix rel (String colon col) bracket Hb); lia.
Qed.

Lemma NewRowValue_of_String_witness :
  NewRowValue (RowValue_String "src" "a.b[0]") = RowValue "src" "a.b[0]".
Proof.
  apply NewRowValue_of_String.
  - intros _. split; reflexivity.
  - discriminate.
Defined.

(** X12: [RowValue.String] prints back the text [NewRowValue] was made from,
    unless the text begins with a colon; the relation [NewRowValue] finds
    never holds a colon. *)
Theorem String_of_NewRowValue (s rel col : string) :
  NewRowValue s = RowValue rel col ->
  occurs colon rel = false /\
  (Index s colon <> 0 -> RowValue_String rel col = s).
Proof.
  unfold NewRowValue, RowValue_String. intros H.
  pose proof (SplitN_parts s colon) as Hparts.
  destruct (SplitN s colon) as [first [second|]].
  - destruct Hparts as (Hs & Hocc & Hidx).
    destruct ((0 <=? Index s bracket) && (Index s bracket <? len first)).
    + injection H as <- <-. split; [reflexivity | intros _; reflexivity].
    + injection H as <- <-. split; [assumption|]. intros Hnz.
      destruct (String.eqb_spec first "") as [->|Hne]; simpl.
      * unfold len in Hidx. simpl in Hidx. contradiction.
      * symmetry. assumption.
  - destruct Hparts as (-> & _).
    destruct ((0 <=? Index s bracket) && (Index s bracket <? len s));
      injection H as <- <-; (split; [reflexivity | intros _; reflexivity]).
Qed.

Lemma String_of_NewRowValue_witness :
  occurs colon "src" = false /\
  (Index "src:a:b" colon <> 0 -> RowValue_String "src" "a:b" = "src:a:b"%string).
Proof. apply (String_of_NewRowValue "src:a:b"). reflexivity. Defined.

(** *** Row metadata and wildcards *)

(** [NewRowMeta] reads back what [RowMeta.String] prints whenever the
    relation name holds no colon. *)
Theorem NewRowMeta_of_String (rel : string) (m : MetaInformation) :
  occurs colon rel = false ->
  NewRowMeta (RowMeta_String rel m) m = RowMeta rel m.
Proof.
  intros Hc. unfold RowMeta_String, NewRowMeta.
  destruct (String.eqb_spec rel "") as [->|Hne]; simpl negb; cbv iota.
  - destruct m; reflexivity.
  - rewrite (SplitN_at_first rel _ colon Hc). reflexivity.
Qed.

Lemma NewRowMeta_of_String_witness :
  NewRowMeta (RowMeta_String "src" TimestampMeta) TimestampMeta
  = RowMeta "src" TimestampMeta.
Proof. apply NewRowMeta_of_String. reflexivity. Defined.

Lemma TrimRight_append_cut (s t cutset : string) :
  TrimRight t cutset = EmptyString ->
  TrimRight (String.append s t) cutset = TrimRight s cutset.
Proof.
  intros Ht. induction s as [|c s IH]; [exact Ht|].
  change (String.append (String c s) t) with (String c (String.append s t)).
  cbn [TrimRight]. rewrite IH. reflexivity.
Qed.

Lemma TrimRight_keeps (s cutset : string) :
  (forall c, lastRune s = Some c -> inCutset cutset c = false) ->
  TrimRight s cutset = s.
Proof.
  induction s as [|c s IH]; intros Hlast; [reflexivity|].
  cbn [TrimRight]. destruct s as [|d s].
  - simpl. rewrite (Hlast c eq_refl). reflexivity.
  - rewrite IH by (intros c' Hc'; apply Hlast; exact Hc'). reflexivity.
Qed.

(** X13: [NewWildcard] applied to what [Wildcard.String] prints yields the
    relation with its trailing colons and stars removed, so the wildcard
    itself whenever the relation name ends in neither; the bare star gives
    the wildcard of no relation. *)
Theorem NewWildcard_of_String (rel : string) :
  NewWildcard (Wildcard_String rel) = Wildcard (TrimRight rel ":*") /\
  ((forall c, lastRune rel = Some c -> inCutset ":*" c = false) ->
   NewWildcard (Wildcard_String rel) = Wildcard rel).
Proof.
  assert (H : NewWildcard (Wildcard_String rel) = Wildcard (TrimRight rel ":*")).
  { unfold NewWildcard, Wildcard_String.
    destruct (String.eqb_spec rel "") as [->|Hne]; simpl negb; cbv iota.
    - reflexivity.
    - rewrite TrimRight_append_cut by reflexivity. reflexivity. }
  split; [exact H|]. intros Hlast.
  rewrite H, TrimRight_keeps by assumption. reflexivity.
Qed.

(** *** String literals *)

Local Abbreviation q := quote.






(** X15: [NewStringLiteral] panics exactly on a text of fewer than two
    characters, where there is no pair of quotes to take off. *)
Theorem NewStringLiteral_panics_when_short (s : string) :
  (exists v, NewStringLiteral s = Panic v) <-> (String.length s < 2)%nat.
Proof.
  unfold NewStringLiteral, sliceRunes, len.
  destruct ((0 <=? 1) && (1 <=? Z.of_nat (String.length s) - 1)
            && (Z.of_nat (String.length s) - 1 <=? Z.of_nat (String.length s)))
    eqn:Hc; cbn [bind].
  - apply andb_true_iff in Hc as [Hc _]. apply andb_true_iff in Hc as [_ Hc].
    apply Z.leb_le in Hc. split; [intros [v Hv]; discriminate Hv | lia].
  - split; [|eauto]. intros _.
    apply andb_false_iff in Hc as [Hc|Hc];
      [apply andb_false_iff in Hc as [Hc|Hc]|];
      rewrite Z.leb_gt in Hc; lia.
Qed.

End AstTextTheory.

(** ** Queue bounds, dropped tuples and closed destinations *)

Module PipeInvariants.
Import Pipe PipeTheory.

Local Open Scope nat_scope.

Lemma sendLoop_bounded (fuel : nat) (h : heap) (t : ptr) :
  forall (s : pipeSender) (calls : list ptr),
    length (out s) <= capacity s ->
    let r := sendLoop fuel h s t calls in
    length (out (w_sender r)) <= capacity (w_sender r) /\
    capacity (w_sender r) = capacity s.
Proof.
  induction fuel as [|fuel IH]; intros s calls Hb; simpl.
  - split; [assumption | reflexivity].
  - destruct (hasRoom s) eqn:Hroom.
    + simpl. rewrite length_app. simpl. unfold hasRoom in Hroom.
      apply Nat.ltb_lt in Hroom. split; [lia | reflexivity].
    + destruct (dropMode s) eqn:Hm;
        [ | split; [assumption | reflexivity] | ];
        (destruct (out s) as [|d rest] eqn:Hq;
         [ apply IH; rewrite Hq; simpl; lia
         | destruct (IH (withQueue rest s) (calls ++ [d])) as [H1 H2];
           [ rewrite ?Hq in Hb; simpl in Hb |- *; lia
           | split; [exact H1 | exact H2] ] ]).
Qed.

(** [write] keeps the queue within the capacity of the channel, however
    it ends. *)
Theorem write_keeps_queue_bounded (fuel : nat) (h : heap) (s : pipeSender)
  (inp : ptr) :
  length (out s) <= capacity s ->
  let r := write fuel h s inp in
  length (out (w_sender r)) <= capacity (w_sender r) /\
  capacity (w_sender r) = capacity s.
Proof.
  intros Hb. unfold write.
  destruct (closed s); [split; [assumption | reflexivity]|].
  destruct (h !! inp) as [tup|]; [|split; [assumption | reflexivity]].
  destruct (outgoing h s inp tup) as [t h'].
  destruct (dropMode s) eqn:Hm.
  - destruct (hasRoom s) eqn:Hroom; simpl.
    + rewrite length_app. simpl. unfold hasRoom in Hroom.
      apply Nat.ltb_lt in Hroom. split; [lia | reflexivity].
    + split; [assumption | reflexivity].
  - apply sendLoop_bounded. assumption.
  - apply sendLoop_bounded. assumption.
Qed.

Lemma write_keeps_queue_bounded_witness :
  let r := write 2 [sampleTuple 0] (sampleSender [0] 1 DropOldest false) 0 in
  length (out (w_sender r)) <= capacity (w_sender r) /\
  capacity (w_sender r) = capacity (sampleSender [0] 1 DropOldest false).
Proof. apply write_keeps_queue_bounded. simpl. lia. Defined.

Lemma sendLoop_accounts (fuel : nat) (h : heap) (t : ptr) :
  forall (s : pipeSender) (calls : list ptr),
    let r := sendLoop fuel h s t calls in
    w_status r = Returned None ->
    w_dropped r ++ out (w_sender r) ≡ₚ calls ++ out s ++ [t] /\
    ((exists q, out (w_sender r) = q ++ [t]) /\
     cnt (w_sender r) = AddInt64 (cnt s) 1 \/
     dropMode s = DropLatest /\ w_sender r = s /\ w_dropped r = calls ++ [t]).
Proof.
  induction fuel as [|fuel IH]; intros s calls; simpl.
  - discriminate.
  - destruct (hasRoom s) eqn:Hroom.
    + simpl. intros _. split; [reflexivity|]. left. split; [eauto | reflexivity].
    + destruct (dropMode s) eqn:Hm.
      * destruct (out s) as [|d rest] eqn:Hq; intros Hst.
        -- destruct (IH s calls Hst) as [Hp Hc]. rewrite Hq in Hp.
           split; [exact Hp|]. destruct Hc as [Hc | (Hc & _)]; [left; exact Hc|].
           congruence.
        -- destruct (IH (withQueue rest s) (calls ++ [d]) Hst) as [Hp Hc].
           simpl in Hp, Hc. split.
           ++ rewrite Hp, <- !app_assoc. reflexivity.
           ++ destruct Hc as [Hc | (Hc & _)]; [left; exact Hc | congruence].
      * simpl. intros _. split.
        -- rewrite <- !app_assoc. apply Permutation_app_head.
           apply Permutation_app_comm.
        -- right. repeat split.
      * destruct (out s) as [|d rest] eqn:Hq; intros Hst.
        -- destruct (IH s calls Hst) as [Hp Hc]. rewrite Hq in Hp.
           split; [exact Hp|]. destruct Hc as [Hc | (Hc & _)]; [left; exact Hc|].
           congruence.
        -- destruct (IH (withQueue rest s) (calls ++ [d]) Hst) as [Hp Hc].
           simpl in Hp, Hc. split.
           ++ rewrite Hp, <- !app_assoc. reflexivity.
           ++ destruct Hc as [Hc | (Hc & _)]; [left; exact Hc | congruence].
Qed.

(** X16: when [write] returns [nil], no tuple has vanished: the tuples handed
    to the dropped-tuple callback together with the queue are the old queue
    and the outgoing tuple; and the count of written tuples has gone up by
    one exactly when the outgoing tuple was put at the end of the queue,
    otherwise the sender is as before and the outgoing tuple is the one
    dropped. *)
Theorem write_accounts_for_every_tuple (fuel : nat) (h : heap)
  (s : pipeSender) (inp : ptr) (tup : Tuple) :
  h !! inp = Some tup ->
  w_status (write fuel h s inp) = Returned None ->
  let r := write fuel h s inp in
  let t := fst (outgoing h s inp tup) in
  w_dropped r ++ out (w_sender r) ≡ₚ out s ++ [t] /\
  ((exists q, out (w_sender r) = q ++ [t]) /\
   cnt (w_sender r) = AddInt64 (cnt s) 1 \/
   dropMode s = DropLatest /\ w_sender r = s /\ w_dropped r = [t]).
Proof.
  intros Hin. unfold write. rewrite Hin.
  destruct (closed s); [discriminate|].
  destruct (outgoing h s inp tup) as [t h']. cbn [fst].
  destruct (dropMode s) eqn:Hm.
  - destruct (hasRoom s); [|discriminate]. simpl. intros _.
    split; [reflexivity|]. left. split; [eauto | reflexivity].
  - intros Hst. pose proof (sendLoop_accounts fuel h' t s [] Hst) as [Hp Hc].
    split; [exact Hp|].
    destruct Hc as [Hc|(Hd0 & Hs & Hd)];
      [left; exact Hc | right; repeat split; first [assumption | congruence]].
  - intros Hst. pose proof (sendLoop_accounts fuel h' t s [] Hst) as [Hp Hc].
    split; [exact Hp|].
    destruct Hc as [Hc|(Hd0 & Hs & Hd)];
      [left; exact Hc | right; repeat split; first [assumption | congruence]].
Qed.

Lemma write_accounts_for_every_tuple_witness :
  let r := write 2 [sampleTuple 0; sampleTuple 0]
             (sampleSender [1] 1 DropOldest false) 0 in
  let t := fst (outgoing [sampleTuple 0; sampleTuple 0]
                  (sampleSender [1] 1 DropOldest false) 0 (sampleTuple 0)) in
  w_dropped r ++ out (w_sender r) ≡ₚ [1] ++ [t] /\
  ((exists q, out (w_sender r) = q ++ [t]) /\
   cnt (w_sender r) = AddInt64 5 1 \/
   dropMode (sampleSender [1] 1 DropOldest false) = DropLatest /\
   w_sender r = sampleSender [1] 1 DropOldest false /\ w_dropped r = [t]).
Proof.
  apply (write_accounts_for_every_tuple 2 [sampleTuple 0; sampleTuple 0]
           (sampleSender [1] 1 DropOldest false) 0 (sampleTuple 0));
    reflexivity.
Defined.



Lemma sendLoop_spins (fuel : nat) (h : heap) (t : ptr) :
  forall (s : pipeSender) (calls : list ptr),
    dropMode s = DropOldest ->
    capacity s = 0 ->
    w_status (sendLoop fuel h s t calls) = Spinning.
Proof.
  induction fuel as [|fuel IH]; intros s calls Hm Hcap; simpl.
  - reflexivity.
  - unfold hasRoom. rewrite Hcap, Hm. simpl.
    destruct (out s) as [|d rest].
    + apply IH; assumption.
    + apply IH; assumption.
Qed.

(** In drop-oldest mode on a channel of capacity zero, and no receiver
    waiting, the loop of [write] never comes to an end: the send cannot go
    through and there is nothing to take out, however many rounds it is
    given. *)
Theorem write_drop_oldest_spins_without_buffer (fuel : nat) (h : heap)
  (s : pipeSender) (inp : ptr) (tup : Tuple) :
  closed s = false ->
  h !! inp = Some tup ->
  dropMode s = DropOldest ->
  capacity s = 0 ->
  w_status (write fuel h s inp) = Spinning.
Proof.
  intros Hopen Hin Hm Hcap. unfold write. rewrite Hopen, Hin.
  destruct (outgoing h s inp tup) as [t h']. rewrite Hm.
  apply sendLoop_spins; assumption.
Qed.

Lemma write_drop_oldest_spins_without_buffer_witness :
  w_status (write 7 [sampleTuple 0] (sampleSender [] 0 DropOldest false) 0)
  = Spinning.
Proof.
  apply (write_drop_oldest_spins_without_buffer 7 _ _ _ (sampleTuple 0));
    reflexivity.
Defined.

(** *** Destinations after a broadcast *)

Lemma sendLoop_closed (fuel : nat) (h : heap) (t : ptr) :
  forall (s : pipeSender) (calls : list ptr),
    closed (w_sender (sendLoop fuel h s t calls)) = closed s /\
    w_status (sendLoop fuel h s t calls) <> Returned (Some errPipeClosed).
Proof.
  induction fuel as [|fuel IH]; intros s calls; simpl.
  - split; [reflexivity | discriminate].
  - destruct (hasRoom s); [split; [reflexivity | discriminate]|].
    destruct (dropMode s); try (split; [reflexivity | discriminate]);
      (destruct (out s) as [|d rest];
       [apply IH | exact (IH (withQueue rest s) (calls ++ [d]))]).
Qed.

(** A write leaves the closed mark as it is and reports the closed pipe
    exactly when the mark is set. *)
Lemma write_closed (fuel : nat) (h : heap) (s : pipeSender) (t : ptr) :
  closed (w_sender (write fuel h s t)) = closed s /\
  (forall e, w_status (write fuel h s t) = Returned (Some e) ->
             closed s = true) /\
  (w_status (write fuel h s t) = Returned None -> closed s = false).
Proof.
  unfold write. destruct (closed s) eqn:Hc.
  - simpl. repeat split; [assumption | discriminate].
  - destruct (h !! t) as [tup|]; simpl;
      [|repeat split; [assumption | discriminate]].
    destruct (outgoing h s t tup) as [t' h'].
    destruct (dropMode s).
    + destruct (hasRoom s); simpl; repeat split; try assumption;
        intros; discriminate.
    + destruct (sendLoop_closed fuel h' t' s []) as [H1 H2].
      rewrite H1. repeat split; try assumption.
      intros [] He. contradiction.
    + destruct (sendLoop_closed fuel h' t' s []) as [H1 H2].
      rewrite H1. repeat split; try assumption.
      intros [] He. contradiction.
Qed.

(** What the loop has gathered when it comes to its end. *)
Lemma writeAll_closed_names (fuel : nat) (node : string) (t : ptr)
  (ds : list (string * pipeSender)) :
  forall (h : heap) (reports : list report) (names : list string),
    let l := writeAll fuel node h t ds reports names in
    (exists e, l_status l = Returned e) ->
    map fst (l_dsts l) = map fst ds /\
    map (fun p => closed (snd p)) (l_dsts l)
    = map (fun p => closed (snd p)) ds /\
    l_closed l
    = names ++ map fst (filter (fun p => closed (snd p) = true) ds).
Proof.
  induction ds as [|[name dst] rest IH]; intros h reports names; simpl.
  - intros _. rewrite app_nil_r. repeat split.
  - pose proof (write_closed fuel h dst t) as (Hc & Herr & Hok).
    destruct (w_status (write fuel h dst t)) as [err| | |] eqn:Hst; simpl;
      try (intros [e He]; discriminate He).
    intros Hret.
    destruct (IH (w_heap (write fuel h dst t))
                (reports ++ map (fun _ => mkReport t node "the output queue is full")
                                (w_dropped (write fuel h dst t)))
                (match err with
                 | Some _ => names ++ [name]
                 | None => names
                 end) Hret) as (H1 & H2 & H3).
    rewrite H1, H2, H3, Hc. repeat split.
    rewrite filter_cons. simpl. destruct err as [e|].
    + rewrite (Herr e eq_refl).
      destruct (decide (true = true)); [|congruence].
      simpl. rewrite <- app_assoc. reflexivity.
    + rewrite (Hok eq_refl).
      destruct (decide (false = true)); [discriminate|]. reflexivity.
Qed.

Lemma removeClosed_names (names : list string)
  (ds : list (string * pipeSender)) :
  map fst (removeClosed names ds) = filter (fun n => n ∉ names) (map fst ds).
Proof.
  unfold removeClosed. induction ds as [|x xs IH]; [reflexivity|].
  simpl. rewrite !filter_cons.
  destruct (decide (fst x ∉ names)); simpl; rewrite IH; reflexivity.
Qed.

Lemma filter_nothing (l : list string) :
  filter (fun n : string => n ∉ ([] : list string)) l = l.
Proof.
  induction l as [|x xs IH]; [reflexivity|].
  rewrite filter_cons.
  destruct (decide (x ∉ [])) as [_|Hn]; [rewrite IH; reflexivity|].
  exfalso. apply Hn. apply not_elem_of_nil.
Qed.

(** X18: when [Write] returns, every destination it keeps is open, and the
    destinations it keeps are those whose names were not found closed; the
    call is counted once, as sent when there was a destination and as
    dropped when there was none. *)
Theorem Write_keeps_open_destinations (fuel : nat) (logging : bool)
  (d : dataDestinations) (h : heap) (t : ptr) (e : option error) :
  b_status (Write fuel logging d h t) = Returned e ->
  let d' := b_dests (Write fuel logging d h t) in
  Forall (fun p => closed (snd p) = false) (dsts d') /\
  map fst (dsts d')
  = filter (fun n => n ∉ map fst (filter (fun p => closed (snd p) = true)
                                      (dsts d)))
      (map fst (dsts d)) /\
  (if (length (dsts d) =? 0)
   then numDropped d' = AddInt64 (numDropped d) 1 /\ numSent d' = numSent d
   else numSent d' = AddInt64 (numSent d) 1 /\ numDropped d' = numDropped d).
Proof.
  unfold Write. destruct (paused d); [discriminate|].
  destruct (length (dsts d) =? 0) eqn:Hlen.
  - simpl. intros _. apply Nat.eqb_eq in Hlen.
    destruct (dsts d); [|discriminate Hlen]. repeat split. constructor.
  - destruct (markShared d h t) as [h1|]; [|discriminate].
    destruct (l_status (writeAll fuel (nodeName d) h1 t (dsts d) [] []))
      as [err| | |] eqn:Hst; try discriminate.
    intros _. simpl.
    destruct (writeAll_closed_names fuel (nodeName d) t (dsts d) h1 [] []
                (ex_intro _ err Hst)) as (Hn & Hc & Hnames).
    simpl in Hnames.
    set (l := writeAll fuel (nodeName d) h1 t (dsts d) [] []) in *.
    assert (Hmark : forall p, p ∈ l_dsts l -> closed (snd p) = true ->
                    fst p ∈ l_closed l).
    { intros p Hp Hcl. rewrite Hnames.
      apply list_elem_of_In, in_map_iff.
      assert (Hzip : forall (a b : list (string * pipeSender)),
                map fst a = map fst b ->
                map (fun p => closed (snd p)) a
                = map (fun p => closed (snd p)) b ->
                forall p, p ∈ a -> closed (snd p) = true ->
                exists q, fst p = fst q /\
                          q ∈ filter (fun p => closed (snd p) = true) b).
      { clear. induction a as [|x a IH]; intros [|y b] H1 H2 p Hp Hcl;
          try discriminate; [inversion Hp|].
        simpl in H1, H2. injection H1 as Hf H1. injection H2 as Hg H2.
        apply elem_of_cons in Hp as [->|Hp].
        - exists y. split; [assumption|].
          apply list_elem_of_filter. split; [congruence | apply elem_of_cons; left; reflexivity].
        - destruct (IH b H1 H2 p Hp Hcl) as (q & Hq1 & Hq2).
          exists q. split; [assumption|].
          apply list_elem_of_filter in Hq2 as [? ?].
          apply list_elem_of_filter. split; [assumption | apply elem_of_cons; right; assumption]. }
      destruct (Hzip _ _ Hn Hc p Hp Hcl) as (q & Hq1 & Hq2).
      exists q. split; [symmetry; assumption | apply list_elem_of_In; assumption]. }
    destruct (l_closed l) as [|n ns] eqn:Hl; simpl.
    + repeat split.
      * apply Forall_forall. intros p Hp.
        destruct (closed (snd p)) eqn:Hcl; [|reflexivity].
        exfalso. exact (not_elem_of_nil _ (Hmark p Hp Hcl)).
      * rewrite <- Hnames, Hn. symmetry. apply filter_nothing.
    + repeat split.
      * apply Forall_forall. intros p Hp.
        apply list_elem_of_filter in Hp as [Hp1 Hp2].
        destruct (closed (snd p)) eqn:Hcl; [|reflexivity].
        exfalso. apply Hp1. apply Hmark; assumption.
      * rewrite <- Hnames, <- Hn. apply removeClosed_names.
Qed.

Lemma Write_keeps_open_destinations_witness :
  let d := mkDests 0 0 "box"
             [("a"%string, sampleSender [] 1 DropNone true);
              ("b"%string, sampleSender [] 1 DropLatest false)] false true in
  let d' := b_dests (Write 2 false d [sampleTuple 0] 0) in
  Forall (fun p => closed (snd p) = false) (dsts d') /\
  map fst (dsts d')
  = filter (fun n => n ∉ map fst (filter (fun p => closed (snd p) = true)
                                      (dsts d)))
      (map fst (dsts d)) /\
  (if (length (dsts d) =? 0)
   then numDropped d' = AddInt64 (numDropped d) 1 /\ numSent d' = numSent d
   else numSent d' = AddInt64 (numSent d) 1 /\ numDropped d' = numDropped d).
Proof.
  apply (Write_keeps_open_destinations 2 false _ _ _ None). reflexivity.
Defined.

End PipeInvariants.

(** ** What [ParseStmt] leaves over, and the loop over statements *)

Module StatementsTheory.
Import Parser Statements.




Lemma length_dropRunes (n : nat) (s : string) :
  String.length (dropRunes n s) = (String.length s - n)%nat.
Proof.
  revert s. induction n as [|n IH]; intros s; simpl; [lia|].
  destruct s as [|c s]; simpl; [reflexivity | apply IH].
Qed.

Lemma length_TrimLeftFunc (s : string) (f : ascii -> bool) :
  (String.length (TrimLeftFunc s f) <= String.length s)%nat.
Proof.
  induction s as [|c s IH]; simpl; [lia|].
  destruct (f c); simpl; lia.
Qed.

Section Backend.

Variable statement : Type.
Variable raised : Type.
Variable describe : panicValue raised -> string.
Variable Parse : string -> go (panicValue raised) (option string).
Variable Execute :
  string -> go (panicValue raised) (list (Z * Z * statement)).

Local Abbreviation parseStmt :=
  (ParseStmt statement raised describe Parse Execute).

(** A successful [ParseStmt] hands back the statement on top of the parse
    stack and the input from its end position on, trimmed. *)
Lemma ParseStmt_success (s rest : string) (result : option statement) :
  parseStmt s = Ret (result, rest, None) ->
  exists (b e : Z) (comp : statement) (below : list (Z * Z * statement)),
    Execute s = Ret ((b, e, comp) :: below) /\
    0 <= e <= Z.of_nat (String.length s) /\
    result = Some comp /\
    rest = TrimLeftFunc (dropRunes (Z.to_nat e) s) isSpaceOrSemicolon.
Proof.
  unfold ParseStmt, recovering, ParseStmt_body, bind, sliceFrom.
  destruct (Parse s) as [[err|]|v]; try discriminate.
  destruct (Execute s) as [[|[[b e] comp] below]|v]; try discriminate.
  destruct ((0 <=? e) && (e <=? Z.of_nat (String.length s))) eqn:He;
    [|discriminate].
  intros H. injection H as <- <-.
  apply andb_true_iff in He as [H0 H1]. apply Z.leb_le in H0, H1.
  exists b, e, comp, below. repeat split; assumption.
Qed.


(** Every call of [ParseStmt] returns. *)
Lemma ParseStmt_returns (s : string) : exists r, parseStmt s = Ret r.
Proof.
  unfold ParseStmt, recovering.
  destruct (ParseStmt_body statement raised Parse Execute s); eauto.
Qed.

Lemma parseLoop_ends (Hprogress : progresses statement raised Execute)
  (fuel : nat) :
  forall (rest : string) (results : list (option statement)),
    (String.length rest < fuel)%nat ->
    exists r, parseLoop statement raised describe Parse Execute fuel rest
                results = Some (Ret r) /\
              (forall e, snd r = Some e -> fst r = None).
Proof.
  induction fuel as [|fuel IH]; intros rest results Hlen; [lia|].
  simpl. destruct (String.eqb_spec rest "") as [->|Hne].
  - eexists. split; [reflexivity|]. simpl. discriminate.
  - destruct (ParseStmt_returns rest) as [[[result restTmp] err] Hr].
    rewrite Hr. destruct err as [e|].
    + eexists. split; [reflexivity|]. reflexivity.
    + apply IH.
      apply ParseStmt_success in Hr
        as (b & e & comp & below & Hex & He & _ & ->).
      pose proof (Hprogress _ _ _ _ _ Hex) as H1.
      pose proof (length_TrimLeftFunc (dropRunes (Z.to_nat e) rest)
                    isSpaceOrSemicolon) as Hl.
      rewrite length_dropRunes in Hl.
      destruct rest; [congruence|]. simpl in *. lia.
Qed.

(** X20: when each statement the backend recognises takes up at least one
    character, [ParseStmts] ends after at most as many calls of [ParseStmt]
    as its trimmed input has characters, it does not panic, and it returns
    a [nil] slice whenever it returns an error. *)
Theorem ParseStmts_ends (s : string) :
  progresses statement raised Execute ->
  exists r,
    ParseStmts statement raised describe Parse Execute
      (S (String.length (TrimSpace s))) s = Some (Ret r) /\
    (forall e, snd r = Some e -> fst r = None).
Proof.
  intros Hprogress. unfold ParseStmts. apply parseLoop_ends; [assumption | lia].
Qed.

End Backend.

Lemma TrimSpace_blank (s : string) :
  TrimRightFunc s isSpace = EmptyString -> TrimSpace s = EmptyString.
Proof. intros H. unfold TrimSpace. rewrite H. reflexivity. Qed.

(** A backend that always recognises the next three characters. *)
Lemma ParseStmts_ends_witness :
  exists r,
    ParseStmts unit unit (fun _ => EmptyString) (fun _ => Ret None)
      (fun _ => Ret [(0, 3, tt)])
      (S (String.length (TrimSpace "abc;def"))) "abc;def" = Some (Ret r) /\
    (forall e, snd r = Some e -> fst r = None).
Proof.
  apply ParseStmts_ends.
  intros s b e comp below H. injection H as _ <- _ _. lia.
Defined.


(** Two statements are parsed one after the other. *)
Example ParseStmts_two :
  ParseStmts unit unit (fun _ => EmptyString) (fun _ => Ret None)
    (fun _ => Ret [(0, 3, tt)]) 8 "  abc;def  "
  = Some (Ret (Some [Some tt; Some tt], None)).
Proof. reflexivity. Qed.

End StatementsTheory.

(** ** Argument counts, converters and integer ranges of the UDF bridge *)

Module UdfCallTheory.
Import Udf UdfCall.

(** *** Integer arguments *)







(** *** Calls *)

Section Call.

Variable value : Type.
Variable arg : Type.
Variable genericFuncArgumentConverter :
  rtype -> error + (value -> error + arg).
Variable Elem : rtype -> rtype.
Variable checkGenericFuncReturnTypes : rtype -> error + bool.

Local Abbreviation converter := (value -> error + arg).
Local Abbreviation build :=
  (convertGenericAggregate converter checkGenericFuncReturnTypes
     (createGenericConverters value arg genericFuncArgumentConverter Elem)).

Lemma convertFixed_no_count_error (count i : nat) (convs : list converter)
  (a : list value) (ins : list (passed arg)) :
  convertFixed value arg count i convs a ins <> CallFails ErrInsufficient /\
  convertFixed value arg count i convs a ins <> CallFails ErrTooMany.
Proof.
  revert i ins. induction count as [|count IH]; intros i ins; simpl.
  - split; discriminate.
  - destruct (convs !! i) as [c|]; [|split; discriminate].
    destruct (a !! i) as [v|]; [|split; discriminate].
    destruct (c v); [split; discriminate | apply IH].
Qed.

Lemma convertVariadic_no_count_error (convs : list converter)
  (a : list value) (ins : list (passed arg)) :
  convertVariadic value arg convs a ins <> CallFails ErrInsufficient /\
  convertVariadic value arg convs a ins <> CallFails ErrTooMany.
Proof.
  revert ins. induction a as [|v a IH]; intros ins; simpl.
  - split; discriminate.
  - destruct (last convs) as [c|]; [|split; discriminate].
    destruct (c v); [split; discriminate | apply IH].
Qed.

Lemma convertArguments_no_count_error (g : genericFunc converter)
  (args : list value) :
  convertArguments value arg g args <> CallFails ErrInsufficient /\
  convertArguments value arg g args <> CallFails ErrTooMany.
Proof.
  unfold convertArguments.
  destruct (_ <? 0); [destruct (_ <? _); split; discriminate|].
  destruct (convertFixed value arg _ 0 (converters converter g) args _) eqn:Hf.
  - rewrite <- Hf. apply convertFixed_no_count_error.
  - split; discriminate.
  - apply convertVariadic_no_count_error.
Qed.

(** X22: [call] refuses a number of arguments exactly when [Accept] refuses
    it: with too few or too many arguments it returns the matching error
    before any argument is converted, and with an accepted number it
    returns neither of the two. *)
Theorem call_counts_like_Accept (g : genericFunc converter)
  (args : list value) :
  (Accept converter g (Z.of_nat (length args)) = false <->
   call value arg g args = CallFails ErrInsufficient \/
   call value arg g args = CallFails ErrTooMany) /\
  (call value arg g args = CallFails ErrInsufficient ->
   Z.of_nat (length args) < arity converter g) /\
  (call value arg g args = CallFails ErrTooMany ->
   arity converter g < Z.of_nat (length args)).
Proof.
  unfold Accept, call.
  set (n := Z.of_nat (length args)). set (ar := arity converter g).
  destruct (convertArguments_no_count_error g args) as [Hi Ht].
  assert (Hn : n <? ar = true -> n < ar) by apply Z.ltb_lt.
  assert (Hge : n <? ar = false -> n =? ar = false -> ar < n).
  { intros H1 H2. apply Z.ltb_ge in H1. apply Z.eqb_neq in H2. lia. }
  destruct (n <? ar) eqn:Hlt; simpl;
    [ destruct (variadic converter g && (n =? ar - 1)) eqn:Hv
    | destruct (n =? ar) eqn:Heq; simpl;
      [ | destruct (variadic converter g) eqn:Hv ] ];
    simpl;
    (split; [split|split]); intros;
    solve [ discriminate | congruence | auto
          | left; reflexivity | right; reflexivity
          | match goal with
            | H : _ \/ _ |- _ => destruct H; congruence
            end ].
Qed.

Lemma convertersFrom_length (args : list rtype) :
  forall (i n : nat) (v : bool) (convs cs : list converter),
    convertersFrom value arg genericFuncArgumentConverter Elem i n v args convs
    = inr cs ->
    length cs = (length convs + length args)%nat.
Proof.
  induction args as [|a args IH]; intros i n v convs cs; simpl.
  - intros H. injection H as <-. lia.
  - destruct (genericFuncArgumentConverter _) as [e|c]; [discriminate|].
    intros H. apply IH in H. rewrite length_app in H. simpl in H. lia.
Qed.

(** What [convertGenericAggregate] has checked when it returns a function. *)
Lemma built_shape (t : rtype) (aggParams : list bool) (isAggregate : bool)
  (g : genericFunc converter) :
  build t aggParams isAggregate = inr g ->
  arity converter g = argumentCount t /\
  0 <= arity converter g /\
  Z.of_nat (length (converters converter g)) = arity converter g /\
  aggregationParameter converter g = aggParams /\
  Z.of_nat (length aggParams) = arity converter g /\
  variadic converter g = IsVariadic t /\
  hasContext converter g = genericFuncHasContext t /\
  firstNonSlice t (genericFuncHasContext t) aggParams
    (Z.to_nat (argumentCount t)) = None /\
  (isAggregate = true -> hasTrue aggParams = true).
Proof.
  unfold convertGenericAggregate. fold (argumentCount t).
  destruct (isFunc (KindOf t)); simpl; [|discriminate].
  destruct (isAggregate && (argumentCount t =? 0)) eqn:H0; [discriminate|].
  destruct (isAggregate && negb (hasTrue aggParams)) eqn:H1; [discriminate|].
  destruct (argumentCount t =? Z.of_nat (length aggParams)) eqn:Hlen;
    simpl; [|discriminate].
  apply Z.eqb_eq in Hlen.
  destruct (firstNonSlice t _ aggParams _) eqn:Hfirst; [discriminate|].
  destruct (checkGenericFuncReturnTypes t) as [e|hasErr]; [discriminate|].
  destruct (createGenericConverters value arg genericFuncArgumentConverter
              Elem t (NumIn t - argumentCount t)) as [e|convs] eqn:Hc;
    [discriminate|].
  intros H. injection H as <-. simpl.
  assert (Hcount : 0 <= argumentCount t /\
                   0 <= NumIn t - argumentCount t <= NumIn t).
  { unfold argumentCount, genericFuncHasContext, NumIn.
    destruct (Ins t) as [|c ins]; simpl length; [lia|].
    destruct (AcceptsContext c); lia. }
  unfold createGenericConverters in Hc. apply convertersFrom_length in Hc.
  rewrite length_drop in Hc. simpl in Hc. unfold NumIn in *.
  repeat split; try lia; try reflexivity.
  intros ->. simpl in H1. destruct (hasTrue aggParams); [reflexivity|discriminate].
Qed.

Lemma convertFixed_in_range (count : nat) (convs : list converter)
  (args : list value) :
  forall (i : nat) (ins : list (passed arg)),
    (i + count <= length convs)%nat ->
    (i + count <= length args)%nat ->
    convertFixed value arg count i convs args ins <> CallPanics /\
    (forall ins', convertFixed value arg count i convs args ins = Calls ins' ->
                  length ins' = (length ins + count)%nat).
Proof.
  induction count as [|count IH]; intros i ins Hc Ha; simpl.
  - split; [discriminate|]. intros ins' H. injection H as <-. lia.
  - destruct (lookup_lt_is_Some_2 convs i ltac:(lia)) as [c ->].
    destruct (lookup_lt_is_Some_2 args i ltac:(lia)) as [v ->].
    destruct (c v) as [e|a]; [split; discriminate|].
    destruct (IH (S i) (ins ++ [Converted a]) ltac:(lia) ltac:(lia))
      as [H1 H2].
    split; [exact H1|]. intros ins' H. apply H2 in H.
    rewrite length_app in H. simpl in H. lia.
Qed.

Lemma convertVariadic_in_range (convs : list converter) (args : list value) :
  forall ins : list (passed arg),
    (args = [] \/ convs <> []) ->
    convertVariadic value arg convs args ins <> CallPanics /\
    (forall ins', convertVariadic value arg convs args ins = Calls ins' ->
                  length ins' = (length ins + length args)%nat).
Proof.
  induction args as [|v args IH]; intros ins Hne; simpl.
  - split; [discriminate|]. intros ins' H. injection H as <-. lia.
  - destruct Hne as [Hne|Hne]; [discriminate Hne|].
    destruct (last convs) as [c|] eqn:Hl.
    + destruct (c v) as [e|a]; [split; discriminate|].
      destruct (IH (ins ++ [Converted a]) (or_intror Hne)) as [H1 H2].
      split; [exact H1|]. intros ins' H. apply H2 in H.
      rewrite length_app in H. simpl in H. lia.
    + apply last_None in Hl. contradiction.
Qed.

(** X23: on a function built by the bridge, a call with an accepted number of
    arguments never reads a converter or an argument out of range, and when
    it reaches the function it hands over one value for each argument,
    after the context if the function takes one. *)
Theorem call_of_built_function (t : rtype) (aggParams : list bool)
  (isAggregate : bool) (g : genericFunc converter) (args : list value) :
  build t aggParams isAggregate = inr g ->
  wellFormed t ->
  Accept converter g (Z.of_nat (length args)) = true ->
  call value arg g args <> CallPanics /\
  (forall ins, call value arg g args = Calls ins ->
     length ins
     = (length args + (if hasContext converter g then 1 else 0))%nat).
Proof.
  intros Hb Hwf Hacc.
  destruct (built_shape t aggParams isAggregate g Hb)
    as (Har & Hnn & Hconv & _ & _ & Hvar & _).
  unfold wellFormed in Hwf. rewrite <- Hvar, <- Har in Hwf.
  unfold Accept in Hacc. unfold call.
  set (n := Z.of_nat (length args)) in *.
  set (ar := arity converter g) in *.
  assert (Hpass :
    (n <? ar) && negb (variadic converter g && (n =? ar - 1)) = false /\
    negb (n <? ar) && negb (n =? ar) && negb (variadic converter g) = false /\
    (if variadic converter g then ar - 1 <= n /\ 1 <= ar else n = ar)).
  { destruct (variadic converter g) eqn:Hv.
    - specialize (Hwf eq_refl).
      destruct (Z.ltb_spec n ar); simpl in Hacc |- *.
      + destruct (Z.eqb_spec n (ar - 1)); [|discriminate Hacc].
        simpl. repeat split; lia.
      + rewrite ?andb_false_r. repeat split; lia.
    - clear Hwf.
      destruct (Z.ltb_spec n ar); simpl in Hacc |- *; [discriminate Hacc|].
      destruct (Z.eqb_spec n ar); simpl in Hacc |- *; [|discriminate Hacc].
      repeat split; assumption. }
  destruct Hpass as (-> & -> & Hshape).
  unfold convertArguments. fold n. fold ar.
  set (vb := if variadic converter g then ar - 1 else ar).
  assert (Hvb : 0 <= vb <= n /\ vb <= ar)
    by (unfold vb; destruct (variadic converter g); lia).
  replace (vb <? 0) with false by (symmetry; apply Z.ltb_ge; lia).
  set (ins0 := if hasContext converter g then [ContextArg] else []).
  destruct (convertFixed_in_range (Z.to_nat vb) (converters converter g) args
              0%nat ins0 ltac:(lia) ltac:(unfold n in *; lia)) as [Hp Hl].
  destruct (convertFixed value arg (Z.to_nat vb) 0 (converters converter g)
              args ins0) as [e| |ins1] eqn:Hf.
  - split; [discriminate|]. intros ins H. discriminate H.
  - contradiction.
  - specialize (Hl ins1 eq_refl).
    destruct (convertVariadic_in_range (converters converter g)
                (drop (Z.to_nat vb) args) ins1) as [Hp' Hl'].
    { unfold vb in *. destruct (variadic converter g).
      - right. intros Hnil. rewrite Hnil in Hconv. simpl in Hconv. lia.
      - left. apply drop_ge. unfold n in *. lia. }
    split; [exact Hp'|]. intros ins H. apply Hl' in H.
    rewrite length_drop in H. rewrite H, Hl.
    unfold ins0, n in *. destruct (hasContext converter g); simpl; lia.
Qed.

(** X24: a function built by [ConvertGeneric] has no aggregation parameter:
    [IsAggregationParameter] answers false at every position. *)
Theorem ConvertGeneric_has_no_aggregation_parameter (t : rtype)
  (g : genericFunc converter) (k : Z) :
  ConvertGeneric converter checkGenericFuncReturnTypes
    (createGenericConverters value arg genericFuncArgumentConverter Elem) t
  = inr g ->
  wellFormed t ->
  0 <= k ->
  IsAggregationParameter value arg g k = Some false.
Proof.
  unfold ConvertGeneric. destruct (negb (isFunc (KindOf t))); [discriminate|].
  intros Hb Hwf Hk.
  destruct (built_shape _ _ _ g Hb)
    as (Har & Hnn & _ & Hmask & Hlen & Hvar & _).
  unfold wellFormed in Hwf. rewrite <- Hvar, <- Har in Hwf.
  unfold IsAggregationParameter. rewrite Hmask.
  destruct (Z.leb_spec (Z.of_nat (length (replicate (Z.to_nat (argumentCount t)) false))) k)
    as [Hle|Hgt].
  - destruct (variadic converter g); [|reflexivity].
    specialize (Hwf eq_refl).
    rewrite <- Har. destruct (Z.to_nat (arity converter g)) as [|m] eqn:Hm;
      [lia|].
    rewrite replicate_S_end, last_snoc. reflexivity.
  - replace (k <? 0) with false by (symmetry; apply Z.ltb_ge; lia).
    rewrite length_replicate in Hgt.
    apply lookup_replicate_2. lia.
Qed.

(** X25: a registered aggregate has an aggregation parameter among its
    arguments, and each of its aggregation parameters is of slice kind. *)
Theorem registered_aggregate_parameters (t : rtype) (aggParams : list bool)
  (g : genericFunc converter) :
  ConvertGenericAggregate converter checkGenericFuncReturnTypes
    (createGenericConverters value arg genericFuncArgumentConverter Elem)
    t aggParams = inr g ->
  (exists k : Z, 0 <= k < arity converter g /\
                 IsAggregationParameter value arg g k = Some true) /\
  (forall k : Z, 0 <= k < arity converter g ->
     IsAggregationParameter value arg g k = Some true ->
     argKind t (hasContext converter g) (Z.to_nat k) = Slice).
Proof.
  unfold ConvertGenericAggregate. intros Hb.
  destruct (built_shape _ _ _ g Hb)
    as (Har & Hnn & _ & Hmask & Hlen & _ & Hctx & Hfirst & Htrue).
  specialize (Htrue eq_refl).
  assert (Hat : forall k : Z, 0 <= k < arity converter g ->
            IsAggregationParameter value arg g k = aggParams !! Z.to_nat k).
  { intros k Hk. unfold IsAggregationParameter. rewrite Hmask.
    replace (Z.of_nat (length aggParams) <=? k) with false
      by (symmetry; apply Z.leb_gt; lia).
    replace (k <? 0) with false by (symmetry; apply Z.ltb_ge; lia).
    reflexivity. }
  split.
  - unfold hasTrue in Htrue. apply existsb_exists in Htrue as (b & Hin & Hb').
    unfold id in Hb'. subst b.
    apply list_elem_of_In, list_elem_of_lookup in Hin as [i Hi].
    pose proof (lookup_lt_Some _ _ _ Hi) as Hlt.
    exists (Z.of_nat i). split; [lia|].
    rewrite Hat by lia. rewrite Nat2Z.id. exact Hi.
  - intros k Hk Hagg. rewrite Hat in Hagg by assumption.
    unfold firstNonSlice in Hfirst.
    pose proof (List.find_none _ _ Hfirst (Z.to_nat k)) as Hnone.
    rewrite Hctx. simpl in Hnone. rewrite Hagg in Hnone.
    specialize (Hnone ltac:(apply in_seq; lia)).
    destruct (argKind t (genericFuncHasContext t) (Z.to_nat k));
      try discriminate Hnone. reflexivity.
Qed.

End Call.

Lemma call_of_built_function_witness :
  let g := mkGenericFunc (Z -> error + Z) variadicFunc true false true 2
             [false; false] [fun v => inr v; fun v => inr v] in
  call Z Z g [1; 2; 3] <> CallPanics /\
  (forall ins, call Z Z g [1; 2; 3] = Calls ins ->
     length ins
     = (length [1; 2; 3]
        + (if hasContext (Z -> error + Z) g then 1 else 0))%nat).
Proof.
  apply (call_of_built_function Z Z plainConverter sameElem noCheck
           variadicFunc [false; false] false).
  - reflexivity.
  - intros _. vm_compute. discriminate.
  - reflexivity.
Defined.

Lemma ConvertGeneric_has_no_aggregation_parameter_witness :
  IsAggregationParameter Z Z
    (mkGenericFunc (Z -> error + Z) variadicFunc true false true 2
       [false; false] [fun v => inr v; fun v => inr v]) 5 = Some false.
Proof.
  apply (ConvertGeneric_has_no_aggregation_parameter Z Z plainConverter
           sameElem noCheck variadicFunc).
  - reflexivity.
  - intros _. vm_compute. discriminate.
  - lia.
Defined.

Lemma registered_aggregate_parameters_witness :
  let g := mkGenericFunc (Z -> error + Z) sliceFunc false false false 1
             [true] [fun v => inr v] in
  (exists k : Z, 0 <= k < arity (Z -> error + Z) g /\
                 IsAggregationParameter Z Z g k = Some true) /\
  (forall k : Z, 0 <= k < arity (Z -> error + Z) g ->
     IsAggregationParameter Z Z g k = Some true ->
     argKind sliceFunc (hasContext (Z -> error + Z) g) (Z.to_nat k) = Slice).
Proof.
  apply (registered_aggregate_parameters Z Z plainConverter sameElem noCheck
           sliceFunc [true]).
  reflexivity.
Defined.

(** A call of the variadic sample function with three arguments. *)
Example call_variadic :
  call Z Z
    (mkGenericFunc (Z -> error + Z) variadicFunc true false true 2
       [false; false] [fun v => inr v; fun v => inr v]) [1; 2; 3]
  = Calls [ContextArg; Converted 1; Converted 2; Converted 3].
Proof. reflexivity. Qed.

End UdfCallTheory.

(** ** Closing a pipe, and adding to and closing a fan-out *)

Module LifecycleTheory.
Import Pipe Lifecycle.

(** X26: closing a sender twice is closing it once: the second [close]
    changes nothing and starts no removal.  After the first, the sender
    reports itself closed with an empty queue status, the tuples already
    queued are still in the channel for the receiver, every fan-out the
    sender was registered with has been sent one removal, and every later
    [write] is refused with the pipe-closed error. *)
Theorem close_once (e : endpoint) :
  let e1 := fst (close e) in
  close e1 = (e1, []) /\
  isClosed e1 = true /\
  queueStatus e1 = (0, 0) /\
  out (ep_sender e1) = out (ep_sender e) /\
  count e1 = count e /\
  (isClosed e = false ->
   snd (close e) = ep_registeredDsts e /\ ep_registeredDsts e1 = []) /\
  (forall (fuel : nat) (h : heap) (t : ptr),
     write fuel h (ep_sender e1) t
     = mkWritten h (ep_sender e1) [] (Returned (Some errPipeClosed))).
Proof.
  unfold close, isClosed, queueStatus, count, write.
  destruct (closed (ep_sender e)) eqn:Hc; simpl; rewrite ?Hc;
    repeat split; try reflexivity; discriminate.
Qed.

Lemma entry_absent_app (name : string) (m : list (string * endpoint))
  (x : endpoint) :
  entry name m = None ->
  entry name (m ++ [(name, x)]) = Some x /\
  without name (m ++ [(name, x)]) = m.
Proof.
  unfold entry, without. induction m as [|[n y] m IH]; simpl; intros H.
  - rewrite String.eqb_refl. simpl. split; reflexivity.
  - destruct (String.eqb n name) eqn:Hn; simpl in *; [discriminate H|].
    destruct (IH H) as [H1 H2]. rewrite H1, H2. split; reflexivity.
Qed.

(** X27: a destination added under a new name can be taken out again: after
    a successful [add] the fan-out has one destination more and refuses the
    name a second time, and [remove] of that name gives back the fan-out as
    it was, closes the sender that was added, and so starts one more
    removal of the same name, which will find nothing. *)
Theorem add_then_remove (name : string) (s : endpoint) (d d1 : destinations)
  (events : list ddEvent) :
  add name s d = (None, d1, events) ->
  len d1 = S (len d) /\
  add name s d1 = (Some errDestinationExists, d1, []) /\
  c_dests (remove name d1) = d /\
  c_closed (remove name d1) = [fst (close (registered name (dd_id d) s))] /\
  (isClosed s = false ->
   c_removals (remove name d1) = ep_registeredDsts s ++ [(name, dd_id d)]) /\
  c_dests (remove name (c_dests (remove name d1))) = d.
Proof.
  unfold add. destruct d as [id sent dropped node [m|] p cb]; simpl;
    [|discriminate].
  destruct (entry name m) as [x|] eqn:He; [discriminate|].
  intros H. injection H as <- _.
  destruct (entry_absent_app name m (registered name id s) He) as [H1 H2].
  unfold remove, len, add. simpl. rewrite H1, H2.
  rewrite length_app. simpl.
  destruct (close (registered name id s)) as [dst' removals] eqn:Hcl.
  simpl. rewrite He. repeat split.
  - lia.
  - intros Hopen. unfold close, registered, isClosed in *. simpl in Hcl.
    rewrite Hopen in Hcl. injection Hcl as _ <-. reflexivity.
Qed.

Lemma add_then_remove_witness :
  let s := mkEndpoint (sampleSender [] 1 DropNone false) [] in
  let d := mkDestinations 7 0 0 "box" (Some []) false true in
  let d1 := mkDestinations 7 0 0 "box"
              (Some [("a"%string, registered "a" 7 s)]) false true in
  len d1 = S (len d) /\
  add "a" s d1 = (Some errDestinationExists, d1, []) /\
  c_dests (remove "a" d1) = d /\
  c_closed (remove "a" d1) = [fst (close (registered "a" (dd_id d) s))] /\
  (isClosed s = false ->
   c_removals (remove "a" d1) = ep_registeredDsts s ++ [("a"%string, dd_id d)]) /\
  c_dests (remove "a" (c_dests (remove "a" d1))) = d.
Proof.
  apply (add_then_remove "a"
           (mkEndpoint (sampleSender [] 1 DropNone false) [])
           (mkDestinations 7 0 0 "box" (Some []) false true) _ [ddeNewConn]).
  reflexivity.
Defined.



End LifecycleTheory.

(** ** Lines and columns of positions *)

Module PositionsTheory.
Import Parser Positions.

Lemma lineFeeds_snoc (l : list Z) (c : Z) :
  lineFeeds (l ++ [c]) = lineFeeds l + (if c =? newline then 1 else 0).
Proof.
  unfold lineFeeds. rewrite List.filter_app, length_app. simpl.
  destruct (c =? newline); simpl; lia.
Qed.

Lemma positionAfter_snoc (l : list Z) (c : Z) :
  positionAfter (l ++ [c]) = advance (positionAfter l) c.
Proof.
  unfold positionAfter, advance. rewrite lineFeeds_snoc, rev_app_distr.
  simpl. destruct (c =? newline); simpl; f_equal; lia.
Qed.

Lemma skipEqual_elem (i : Z) (pending : list Z) (p : Z) :
  p ∈ pending <-> (p = i /\ p ∈ pending) \/ p ∈ skipEqual i pending.
Proof.
  induction pending as [|q later IH]; simpl.
  - split; [intros H | intros [[_ H]|H]]; inversion H.
  - destruct (Z.eqb_spec i q) as [Heq|Hne].
    + subst q. rewrite !elem_of_cons. tauto.
    + split; [intros H; right; done|]. intros [[_ H]|H]; done.
Qed.

Lemma skipEqual_above (i : Z) (pending : list Z) :
  StronglySorted Z.le pending -> Forall (fun p => i <= p) pending ->
  StronglySorted Z.le (skipEqual i pending) /\
  Forall (fun p => i + 1 <= p) (skipEqual i pending).
Proof.
  induction pending as [|q later IH]; simpl; intros Hs Hall.
  - split; constructor.
  - inversion Hs as [|? ? Hs' Hq]; subst.
    inversion Hall as [|? ? Hiq Hall']; subst.
    destruct (Z.eqb_spec i q) as [->|Hne].
    + apply IH; done.
    + split; [done|].
      constructor; [lia|].
      eapply Forall_impl; [exact Hq|]. simpl. intros. lia.
Qed.

(** The loop invariant of [search]: [read] is what has been read, the
    pending positions are sorted and none of them is behind. *)
Lemma search_translates (rest : list Z) :
  forall (read : list Z) (pending : list Z) (translations : gmap Z textPosition),
    pending <> [] ->
    StronglySorted Z.le pending ->
    Forall (fun p => Z.of_nat (length read) <= p) pending ->
    exists m,
      search rest (Z.of_nat (length read)) pending (positionAfter read)
        translations = Ret m /\
      forall p,
        m !! p =
          if decide (p ∈ pending /\ p < Z.of_nat (length (read ++ rest)))
          then Some (positionOf (read ++ rest) p)
          else translations !! p.
Proof.
  induction rest as [|c rest IH]; intros read pending translations Hne Hs Hall.
  - exists translations. split; [done|].
    intros p. destruct (decide _) as [[Hin Hlt]|]; [|done].
    rewrite app_nil_r in Hlt.
    rewrite Forall_forall in Hall. specialize (Hall _ Hin). lia.
  - destruct pending as [|p0 later]; [done|].
    assert (Hread : positionAfter (read ++ [c]) = advance (positionAfter read) c)
      by apply positionAfter_snoc.
    assert (Hlen : Z.of_nat (length (read ++ [c])) = Z.of_nat (length read) + 1)
      by (rewrite length_app; simpl; lia).
    assert (Happ : read ++ c :: rest = (read ++ [c]) ++ rest)
      by (rewrite <- app_assoc; done).
    simpl search.
    destruct (Z.eqb_spec (Z.of_nat (length read)) p0) as [Heq|Hneq].
    + pose proof (skipEqual_above _ _ Hs Hall) as Habove.
      simpl in Habove. rewrite (proj2 (Z.eqb_eq _ _) Heq) in Habove.
      destruct Habove as [Hs' Hall'].
      pose proof (skipEqual_elem (Z.of_nat (length read)) later) as Hel.
      assert (Hhere : positionOf (read ++ c :: rest) p0
                      = advance (positionAfter read) c).
      { unfold positionOf. rewrite <- Heq, Nat2Z.id, <- Hread, Happ.
        rewrite take_app_le by (rewrite length_app; simpl; lia).
        rewrite take_ge by (rewrite length_app; simpl; lia). done. }
      destruct (skipEqual (Z.of_nat (length read)) later) as [|q pending'] eqn:Hskip.
      * eexists. split; [done|].
        intros p. destruct (decide _) as [[Hin Hlt]|Hn].
        -- assert (p = p0) as ->.
           { apply elem_of_cons in Hin as [->|Hin]; [done|].
             apply Hel in Hin as [[-> _]|Hin]; [done|inversion Hin]. }
           rewrite lookup_insert_eq. f_equal. done.
        -- rewrite lookup_insert_ne; [done|].
           intros <-. apply Hn. split; [left|].
           rewrite length_app. simpl. lia.
      * rewrite <- Hread, <- Hlen.
        destruct (IH (read ++ [c]) (q :: pending')
                    (<[p0 := advance (positionAfter read) c]> translations))
          as (m & Hm & Hlook); [done|done| |].
        { rewrite Hlen. done. }
        exists m. split; [rewrite Hread in Hm; rewrite Hread; exact Hm|].
        intros p. rewrite Hlook, <- Happ.
        destruct (decide (p ∈ q :: pending' /\ _)) as [[Hin Hlt]|Hn].
        -- rewrite decide_True; [done|].
           split; [|done]. right. apply Hel. right. done.
        -- destruct (decide (p = p0)) as [->|Hp].
           ++ rewrite lookup_insert_eq, decide_True.
              ** f_equal. done.
              ** split; [left|]. rewrite length_app. simpl. lia.
           ++ rewrite lookup_insert_ne by done.
              rewrite decide_False; [done|].
              intros [Hin Hlt]. apply Hn. split; [|done].
              apply elem_of_cons in Hin as [->|Hin]; [done|].
              apply Hel in Hin as [[-> _]|Hin]; [|done].
              exfalso. apply Hp. done.
    + rewrite <- Hread, <- Hlen.
      destruct (IH (read ++ [c]) (p0 :: later) translations)
        as (m & Hm & Hlook); [done|done| |].
      { rewrite Hlen. inversion Hall as [|? ? H0 Hall']; subst.
        inversion Hs as [|? ? Hs' Hle]; subst.
        constructor; [lia|].
        rewrite Forall_forall in Hle |- *. intros x Hx.
        specialize (Hle x Hx). lia. }
      exists m. split; [done|].
      intros p. rewrite Hlook, <- Happ. done.
Qed.

(** With a position to look for the loop never reads past the end of the
    positions. *)
Lemma search_returns (rest : list Z) :
  forall i pending at_ translations,
    pending <> [] -> exists m, search rest i pending at_ translations = Ret m.
Proof.
  induction rest as [|c rest IH]; intros i pending at_ translations Hne.
  - eexists. done.
  - destruct pending as [|p0 later]; [done|]. simpl.
    destruct (i =? p0).
    + destruct (skipEqual i later) eqn:Hskip; [eexists; done|].
      apply IH. done.
    + apply IH. done.
Qed.

Lemma merge_sort_nil_iff (positions : list Z) :
  merge_sort Z.le positions = [] <-> positions = [].
Proof.
  split; intros H.
  - apply Permutation_nil_r. rewrite <- H. symmetry.
    apply merge_sort_Permutation.
  - subst. done.
Qed.

(** X29: [translatePositions] gives, for a non-empty list of positions none
    of which is negative, a map that holds exactly the listed positions
    inside the buffer; each is mapped to its line (one more than the line
    feeds up to and including it) and its symbol (the runes since the last
    line feed). *)
Theorem translatePositions_translates (buffer : list Z) (positions : list Z) :
  positions <> [] ->
  Forall (fun p => 0 <= p) positions ->
  exists m,
    translatePositions buffer positions = Ret m /\
    forall p,
      m !! p =
        if decide (p ∈ positions /\ p < Z.of_nat (length buffer))
        then Some (positionOf buffer p)
        else None.
Proof.
  intros Hne Hall. unfold translatePositions.
  pose proof (merge_sort_Permutation Z.le positions) as Hperm.
  destruct (search_translates buffer [] (merge_sort Z.le positions) ∅)
    as (m & Hm & Hlook).
  - rewrite merge_sort_nil_iff. done.
  - apply StronglySorted_merge_sort; apply _.
  - rewrite Hperm. done.
  - exists m. split; [exact Hm|].
    intros p. rewrite Hlook. simpl.
    destruct (decide (p ∈ merge_sort Z.le positions /\ _)) as [[Hin Hlt]|Hn].
    + rewrite decide_True; [done|]. split; [|done]. rewrite <- Hperm. done.
    + rewrite decide_False; [apply lookup_empty|].
      intros [Hin Hlt]. apply Hn. split; [|done]. rewrite Hperm. done.
Qed.

Lemma translatePositions_translates_witness :
  exists m,
    translatePositions [97; 10; 98; 99] [2; 0; 9; 2] = Ret m /\
    forall p,
      m !! p =
        if decide (p ∈ [2; 0; 9; 2] /\ p < Z.of_nat (length [97; 10; 98; 99]))
        then Some (positionOf [97; 10; 98; 99] p)
        else None.
Proof.
  apply translatePositions_translates.
  - discriminate.
  - repeat constructor; lia.
Defined.

(** X30: [translatePositions] panics, with an index out of range, exactly
    when it is given no position and a buffer that is not empty. *)
Theorem translatePositions_panics_without_positions
  (buffer : list Z) (positions : list Z) :
  (exists v, translatePositions buffer positions = Panic v) <->
  buffer <> [] /\ positions = [].
Proof.
  unfold translatePositions. split.
  - intros [v Hv]. destruct positions as [|p positions].
    + split; [|done]. intros ->. discriminate.
    + destruct (search_returns buffer 0 (merge_sort Z.le (p :: positions))
                  (mkTextPosition 1 0) ∅) as [m Hm].
      * rewrite merge_sort_nil_iff. done.
      * rewrite Hm in Hv. discriminate.
  - intros [Hb ->]. destruct buffer as [|c rest]; [done|].
    eexists. done.
Qed.

End PositionsTheory.
